(** * TeenyJVM: the bytecode interpreter of jvm.c

    A shallow embedding of [execute] (jvm.c) and the properties of its
    instruction handlers: operand-stack discipline, branches, static calls
    and the heap-backed integer arrays. *)

From Stdlib Require Import ZArith Lia.
From Stdlib.Strings Require Import Byte String.
From stdpp Require Import base numbers option list.

Local Open Scope Z_scope.

(** ** Machine integers

    Values of the C integer types are carried as [Z]; every conversion to a
    fixed-width type is written out.  The handlers are modelled as the
    compiled interpreter runs them on its LP64 hosts: the arithmetic of the
    operand stack ([+], [-], [*], [<<] on [int32_t]) and the conversion to a
    narrower signed type are two's-complement wrap-around, and [<<] takes
    its count modulo 32, as the shift instruction does.  Where the run has
    no result to name ([INT_MIN / -1], which traps; an access outside an
    allocated block; a NULL pointer followed; a size that overflows [int])
    the outcome is the fault [Undefined] below; so it is for the two right
    shifts by 32 or more, for which ISO C names no result. *)

Definition wrap (bits z : Z) : Z :=
  (z + 2 ^ (bits - 1)) mod 2 ^ bits - 2 ^ (bits - 1).

Definition to_int8 : Z -> Z := wrap 8.
Definition to_int16 : Z -> Z := wrap 16.
Definition to_int32 : Z -> Z := wrap 32.
Definition to_u4 (z : Z) : Z := z mod 2 ^ 32.
(** [size_t] of an LP64 host. *)
Definition to_size_t (z : Z) : Z := z mod 2 ^ 64.

Definition INT32_MIN : Z := - 2 ^ 31.
Definition INT32_MAX : Z := 2 ^ 31 - 1.
Definition is_int32 (z : Z) : Prop := INT32_MIN <= z <= INT32_MAX.

(** A [u1] of the code array, promoted to [int]. *)
Definition u1 (b : byte) : Z := Z.of_N (Byte.to_N b).

Definition byte_of (z : Z) : byte :=
  match Byte.of_N (Z.to_N z) with Some b => b | None => x00 end.

(** ** Outcomes

    [assert] aborts the process; an out-of-bounds access has no defined
    behaviour; [OutOfFuel] is the bound of the interpreter loop of this
    embedding, not an event of the program. *)

Inductive fault : Type := AssertFail | Undefined | OutOfFuel.

Inductive result (A : Type) : Type :=
  | Ok (a : A)
  | Err (e : fault).
Arguments Ok {A} a.
Arguments Err {A} e.

#[global] Instance result_ret : MRet result := fun A a => Ok a.
#[global] Instance result_bind : MBind result :=
  fun A B k r => match r with Ok a => k a | Err e => Err e end.

Definition c_assert (b : bool) : result unit :=
  if b then Ok tt else Err AssertFail.

(** [a[i]] as an rvalue and [a[i] = v], inside the block allocated for [a]. *)
Definition rd {A : Type} (a : list A) (i : Z) : result A :=
  if decide (0 <= i) then
    match a !! Z.to_nat i with
    | Some v => Ok v
    | None => Err Undefined
    end
  else Err Undefined.

Definition wr {A : Type} (a : list A) (i : Z) (v : A) : result (list A) :=
  if decide (0 <= i < Z.of_nat (length a)) then Ok (<[Z.to_nat i := v]> a)
  else Err Undefined.

(** A pointer that may be NULL, dereferenced. *)
Definition deref {A : Type} (p : option A) : result A :=
  match p with Some a => Ok a | None => Err Undefined end.

(** [calloc(sizeof(int32_t), n)]: [n] zeroed words. *)
Definition calloc (n : Z) : list Z := replicate (Z.to_nat n) 0.

(** ** Arithmetic of the handlers *)

Definition c_div (a b : Z) : result Z :=
  if decide (a = INT32_MIN /\ b = -1) then Err Undefined else Ok (Z.quot a b).

Definition c_rem (a b : Z) : result Z :=
  if decide (a = INT32_MIN /\ b = -1) then Err Undefined else Ok (Z.rem a b).

(** [a << b] on [int32_t], as the shift instruction computes it: the low
    32 bits of [a] shifted by the low five bits of the count.  The handler
    itself applies no mask; ISO C names no result for a count of 32 or
    more. *)
Definition c_shl (a b : Z) : result Z :=
  Ok (to_int32 (Z.shiftl a (Z.land b 31))).

(** [a >> b] on [int32_t] (arithmetic). *)
Definition c_shr (a b : Z) : result Z :=
  if decide (0 <= b < 32) then Ok (Z.shiftr a b) else Err Undefined.

(** [(u4) a >> b], stored back into an [int32_t]. *)
Definition c_ushr (a b : Z) : result Z :=
  if decide (0 <= b < 32) then Ok (to_int32 (Z.shiftr (to_u4 a) b))
  else Err Undefined.

(** [count + 1] on [int32_t] where it is the size of a block:
    [assert(count + 1 > 0)] followed by [calloc(sizeof(int32_t), count + 1)].
    The sum overflows for [INT32_MAX]: the comparison is then one the
    compiler decides without the sum, no block of the converted size can be
    allocated, and the store through the NULL that [calloc] returns
    faults. *)
Definition c_size (count : Z) : result Z :=
  if decide (count + 1 <= INT32_MAX) then Ok (count + 1) else Err Undefined.

(** The big-endian 16-bit operand [(b1 << 8) | b2]. *)
Definition be16 (b1 b2 : byte) : Z := Z.lor (Z.shiftl (u1 b1) 8) (u1 b2).

(** ** Data of the class file *)

(** [method_t] with its [code_t] in line; [execute] reads nothing else. *)
Record method_t : Type := Method {
  max_stack : Z;
  max_locals : Z;
  code_length : Z;
  code : list byte
}.

Inductive cp_info : Type :=
  | CONSTANT_Integer_info (bytes : Z)
  | CONSTANT_other.

Record class_file_t : Type := ClassFile {
  constant_pool : list cp_info
}.

(** [((CONSTANT_Integer_info * ) entry.info)->bytes] *)
Definition integer_bytes (e : cp_info) : result Z :=
  match e with
  | CONSTANT_Integer_info b => Ok b
  | CONSTANT_other => Err Undefined
  end.

Record optional_value_t : Type := OptionalValue {
  has_value : bool;
  value : Z
}.

(** [{.has_value = false}] *)
Definition void_result : optional_value_t := OptionalValue false 0.

(** ** The heap *)

(** Modelled from the spec: heap.h and heap.c are not among the sources.  The
    heap is the append-only registry of the spec: reference [r] names the
    [r]-th array registered; [heap_add] returns the fresh reference, the
    number of arrays registered before; [heap_get] returns the array stored
    under a reference.  The arrays are reachable through the heap only, so the
    registry holds them by value and a store through the pointer returned by
    [heap_get] is [heap_set]. *)
Definition heap_t : Type := list (list Z).

Definition heap_init : heap_t := [].

Definition heap_add (h : heap_t) (arr : list Z) : heap_t * Z :=
  (h ++ [arr], Z.of_nat (length h)).

Definition heap_get (h : heap_t) (ref : Z) : result (list Z) := rd h ref.

Definition heap_set (h : heap_t) (ref : Z) (arr : list Z) : result heap_t :=
  wr h ref arr.

(** What one run shares between its frames: the heap and standard output
    (the integers printed, oldest first, one line each). *)
Record world : Type := World {
  heap : heap_t;
  stdout : list Z
}.

(** ** Opcodes *)

Inductive jvm_instruction_t : Type :=
  | i_nop | i_iconst_m1 | i_iconst_0 | i_iconst_1 | i_iconst_2 | i_iconst_3
  | i_iconst_4 | i_iconst_5 | i_bipush | i_sipush | i_ldc
  | i_iload | i_aload
  | i_iload_0 | i_iload_1 | i_iload_2 | i_iload_3
  | i_aload_0 | i_aload_1 | i_aload_2 | i_aload_3
  | i_iaload
  | i_istore | i_astore
  | i_istore_0 | i_istore_1 | i_istore_2 | i_istore_3
  | i_astore_0 | i_astore_1 | i_astore_2 | i_astore_3
  | i_iastore | i_dup
  | i_iadd | i_isub | i_imul | i_idiv | i_irem | i_ineg
  | i_ishl | i_ishr | i_iushr | i_iand | i_ior | i_ixor | i_iinc
  | i_ifeq | i_ifne | i_iflt | i_ifge | i_ifgt | i_ifle
  | i_if_icmpeq | i_if_icmpne | i_if_icmplt | i_if_icmpge | i_if_icmpgt
  | i_if_icmple | i_goto
  | i_ireturn | i_areturn | i_return
  | i_getstatic | i_invokevirtual | i_invokestatic
  | i_newarray | i_arraylength.

#[global] Instance jvm_instruction_eq_dec : EqDecision jvm_instruction_t.
Proof. solve_decision. Defined.

(** Modelled from the spec: the enum of jvm.h is not among the sources; the
    numbering is the canonical one of the class-file format, under which
    [iconst_k] is [opcode - 3]. *)
Definition opcode (i : jvm_instruction_t) : Z :=
  match i with
  | i_nop => 0x00
  | i_iconst_m1 => 0x02 | i_iconst_0 => 0x03 | i_iconst_1 => 0x04
  | i_iconst_2 => 0x05 | i_iconst_3 => 0x06 | i_iconst_4 => 0x07
  | i_iconst_5 => 0x08
  | i_bipush => 0x10 | i_sipush => 0x11 | i_ldc => 0x12
  | i_iload => 0x15 | i_aload => 0x19
  | i_iload_0 => 0x1a | i_iload_1 => 0x1b | i_iload_2 => 0x1c
  | i_iload_3 => 0x1d
  | i_aload_0 => 0x2a | i_aload_1 => 0x2b | i_aload_2 => 0x2c
  | i_aload_3 => 0x2d
  | i_iaload => 0x2e
  | i_istore => 0x36 | i_astore => 0x3a
  | i_istore_0 => 0x3b | i_istore_1 => 0x3c | i_istore_2 => 0x3d
  | i_istore_3 => 0x3e
  | i_astore_0 => 0x4b | i_astore_1 => 0x4c | i_astore_2 => 0x4d
  | i_astore_3 => 0x4e
  | i_iastore => 0x4f | i_dup => 0x59
  | i_iadd => 0x60 | i_isub => 0x64 | i_imul => 0x68 | i_idiv => 0x6c
  | i_irem => 0x70 | i_ineg => 0x74
  | i_ishl => 0x78 | i_ishr => 0x7a | i_iushr => 0x7c
  | i_iand => 0x7e | i_ior => 0x80 | i_ixor => 0x82 | i_iinc => 0x84
  | i_ifeq => 0x99 | i_ifne => 0x9a | i_iflt => 0x9b | i_ifge => 0x9c
  | i_ifgt => 0x9d | i_ifle => 0x9e
  | i_if_icmpeq => 0x9f | i_if_icmpne => 0xa0 | i_if_icmplt => 0xa1
  | i_if_icmpge => 0xa2 | i_if_icmpgt => 0xa3 | i_if_icmple => 0xa4
  | i_goto => 0xa7
  | i_ireturn => 0xac | i_areturn => 0xb0 | i_return => 0xb1
  | i_getstatic => 0xb2 | i_invokevirtual => 0xb6 | i_invokestatic => 0xb8
  | i_newarray => 0xbc | i_arraylength => 0xbe
  end.

Definition all_instructions : list jvm_instruction_t :=
  [ i_nop; i_iconst_m1; i_iconst_0; i_iconst_1; i_iconst_2; i_iconst_3;
    i_iconst_4; i_iconst_5; i_bipush; i_sipush; i_ldc; i_iload; i_aload;
    i_iload_0; i_iload_1; i_iload_2; i_iload_3;
    i_aload_0; i_aload_1; i_aload_2; i_aload_3; i_iaload;
    i_istore; i_astore; i_istore_0; i_istore_1; i_istore_2; i_istore_3;
    i_astore_0; i_astore_1; i_astore_2; i_astore_3; i_iastore; i_dup;
    i_iadd; i_isub; i_imul; i_idiv; i_irem; i_ineg;
    i_ishl; i_ishr; i_iushr; i_iand; i_ior; i_ixor; i_iinc;
    i_ifeq; i_ifne; i_iflt; i_ifge; i_ifgt; i_ifle;
    i_if_icmpeq; i_if_icmpne; i_if_icmplt; i_if_icmpge; i_if_icmpgt;
    i_if_icmple; i_goto; i_ireturn; i_areturn; i_return;
    i_getstatic; i_invokevirtual; i_invokestatic; i_newarray; i_arraylength ].

(** The case label of the [switch] that a byte selects, if any. *)
Definition decode (b : byte) : option jvm_instruction_t :=
  List.find (fun i => Z.eqb (opcode i) (u1 b)) all_instructions.

(** ** Frames *)

(** The state of one activation of [execute]: [pc], the block
    [operand_stack] with its cursor [stack_count], and the block [locals]. *)
Record frame : Type := Frame {
  pc : Z;
  operand_stack : list Z;
  stack_count : Z;
  locals : list Z
}.

(** What one turn of the [while] loop leaves: the frame at the next
    instruction boundary, or the value returned. *)
Inductive step_result : Type :=
  | Continue (f : frame) (w : world)
  | Returned (r : optional_value_t) (w : world).

Definition continue (pc : Z) (os : list Z) (sc : Z) (locals : list Z)
    (w : world) : result step_result :=
  Ok (Continue (Frame pc os sc locals) w).

(** [pc + k] in [size_t]. *)
Definition pc_plus (pc k : Z) : Z := to_size_t (pc + k).

(** [if (cond) pc += (int16_t)((code[pc + 1] << 8) | code[pc + 2]);
     else pc += 3;] *)
Definition branch (m : method_t) (pc : Z) (cond : bool) : result Z :=
  if cond then
    b1 ← rd (code m) (pc_plus pc 1);
    b2 ← rd (code m) (pc_plus pc 2);
    mret (pc_plus pc (to_int16 (be16 b1 b2)))
  else mret (pc_plus pc 3).

(** [for (int32_t i = len - 1; i >= 0; i--) {
       locals_queue[i] = operand_stack[stack_count - 1]; stack_count -= 1; }]
    with [len] iterations to go. *)
Fixpoint pop_arguments (len : nat) (locals_queue os : list Z) (sc : Z)
    : result (list Z * Z) :=
  match len with
  | O => Ok (locals_queue, sc)
  | S i =>
      v ← rd os (sc - 1);
      locals_queue' ← wr locals_queue (Z.of_nat i) v;
      pop_arguments i locals_queue' os (sc - 1)
  end.

(** [for (int i = 1; i <= count; i++) new_array[i] = 0;]
    with [n] iterations to go from index [i]. *)
Fixpoint zero_fill (n : nat) (i : Z) (new_array : list Z) : result (list Z) :=
  match n with
  | O => Ok new_array
  | S n' =>
      new_array' ← wr new_array i 0;
      zero_fill n' (i + 1) new_array'
  end.

(** The index that [invokestatic] hands to [find_method_from_index]:
    [int16_t index = (int16_t)((b1 << 8) | b2)]. *)
Definition invokestatic_index (b1 b2 : byte) : Z := to_int16 (be16 b1 b2).

(** The name of the method to invoke to run the class file, and the
    descriptor of [main()]: it takes a [String[]] and returns void. *)
Definition MAIN_METHOD : string := "main".
Definition MAIN_DESCRIPTOR : string := "([Ljava/lang/String;)V".

(** A running callee: [execute(meth, locals_queue, class, heap)]. *)
Definition callee : Type :=
  method_t -> list Z -> world -> result (optional_value_t * world).

(** The end of a line of output. *)
Definition newline : string := String (Ascii.ascii_of_nat 10) EmptyString.

Section Interpreter.

(** The collaborators of read_class.h, which is not among the sources:
    the method a constant-pool index resolves to (NULL when none), the
    parameter count of a method's descriptor (a [uint16_t]), the method
    of a given name and descriptor (NULL when none), and the parser of a
    class file.  [find_method_from_index index cls] is the value of the
    call [find_method_from_index(index, class)] as a function of the value
    of its argument expression; a conversion of the argument to the type of
    the parameter, which the absent prototype fixes, is part of that
    function. *)
Variable find_method_from_index : Z -> class_file_t -> option method_t.
Variable get_number_of_parameters : method_t -> nat.
Variable find_method : string -> string -> class_file_t -> option method_t.

(** The files of the host: [fopen(path, "r")] (NULL when the file cannot be
    opened), [get_class] of read_class.h, and the status of [fclose]. *)
Variable FILE : Type.
Variable fopen : string -> option FILE.
Variable get_class : FILE -> class_file_t.
Variable fclose : FILE -> Z.

(** The body of the [switch] at [code[pc]], one case per handler of
    jvm.c; [exec] runs the callee of [invokestatic].  A byte with no case
    label leaves everything as it was.  The handlers reach the words of
    [operand_stack] through [ld] (an rvalue [operand_stack[i]]), [st]
    ([operand_stack[i] = v]) and [pop] (the loop that moves the arguments
    of a call), so that the two readings of such an access below share
    them. *)
Definition step_with (ld : list Z -> Z -> result Z)
    (st : list Z -> Z -> Z -> result (list Z))
    (pop : nat -> list Z -> list Z -> Z -> result (list Z * Z))
    (exec : callee) (cls : class_file_t) (m : method_t)
    (f : frame) (w : world) : result step_result :=
  let '(Frame pc os sc locals) := f in
  opc ← rd (code m) pc;
  match decode opc with
  | None => continue pc os sc locals w
  | Some i_bipush =>
      b ← rd (code m) (pc_plus pc 1);
      os' ← st os sc (to_int8 (u1 b));
      continue (pc_plus pc 2) os' (sc + 1) locals w
  | Some i_iadd =>
      top ← ld os (sc - 1);
      sec ← ld os (sc - 2);
      os' ← st os (sc - 2) (to_int32 (top + sec));
      continue (pc_plus pc 1) os' (sc - 1) locals w
  | Some i_return => Ok (Returned void_result w)
  | Some i_getstatic => continue (pc_plus pc 3) os sc locals w
  | Some i_invokevirtual =>
      v ← ld os (sc - 1);
      continue (pc_plus pc 3) os (sc - 1) locals
        (World (heap w) (stdout w ++ [v]))
  | Some i_iconst_m1 | Some i_iconst_0 | Some i_iconst_1 | Some i_iconst_2
  | Some i_iconst_3 | Some i_iconst_4 | Some i_iconst_5 =>
      os' ← st os sc (u1 opc - 3);
      continue (pc_plus pc 1) os' (sc + 1) locals w
  | Some i_sipush =>
      b1 ← rd (code m) (pc_plus pc 1);
      b2 ← rd (code m) (pc_plus pc 2);
      os' ← st os sc (to_int16 (be16 b1 b2));
      continue (pc_plus pc 3) os' (sc + 1) locals w
  | Some i_isub =>
      top ← ld os (sc - 1);
      sec ← ld os (sc - 2);
      os' ← st os (sc - 2) (to_int32 (sec - top));
      continue (pc_plus pc 1) os' (sc - 1) locals w
  | Some i_imul =>
      a ← ld os (sc - 2);
      b ← ld os (sc - 1);
      os' ← st os (sc - 2) (to_int32 (a * b));
      continue (pc_plus pc 1) os' (sc - 1) locals w
  | Some i_idiv =>
      b ← ld os (sc - 1);
      c_assert (negb (b =? 0));;
      a ← ld os (sc - 2);
      q ← c_div a b;
      os' ← st os (sc - 2) q;
      continue (pc_plus pc 1) os' (sc - 1) locals w
  | Some i_irem =>
      b ← ld os (sc - 1);
      c_assert (negb (b =? 0));;
      a ← ld os (sc - 2);
      r ← c_rem a b;
      os' ← st os (sc - 2) r;
      continue (pc_plus pc 1) os' (sc - 1) locals w
  | Some i_ineg =>
      val ← ld os (sc - 1);
      os' ← st os (sc - 1) (to_int32 (-1 * val));
      continue (pc_plus pc 1) os' sc locals w
  | Some i_ishl =>
      b ← ld os (sc - 1);
      c_assert (0 <=? b);;
      a ← ld os (sc - 2);
      r ← c_shl a b;
      os' ← st os (sc - 2) r;
      continue (pc_plus pc 1) os' (sc - 1) locals w
  | Some i_ishr =>
      b ← ld os (sc - 1);
      c_assert (0 <=? b);;
      a ← ld os (sc - 2);
      r ← c_shr a b;
      os' ← st os (sc - 2) r;
      continue (pc_plus pc 1) os' (sc - 1) locals w
  | Some i_iushr =>
      b ← ld os (sc - 1);
      c_assert (0 <=? b);;
      a ← ld os (sc - 2);
      r ← c_ushr a b;
      os' ← st os (sc - 2) r;
      continue (pc_plus pc 1) os' (sc - 1) locals w
  | Some i_iand =>
      a ← ld os (sc - 2);
      b ← ld os (sc - 1);
      os' ← st os (sc - 2) (Z.land a b);
      continue (pc_plus pc 1) os' (sc - 1) locals w
  | Some i_ior =>
      a ← ld os (sc - 2);
      b ← ld os (sc - 1);
      os' ← st os (sc - 2) (Z.lor a b);
      continue (pc_plus pc 1) os' (sc - 1) locals w
  | Some i_ixor =>
      a ← ld os (sc - 2);
      b ← ld os (sc - 1);
      os' ← st os (sc - 2) (Z.lxor a b);
      continue (pc_plus pc 1) os' (sc - 1) locals w
  | Some i_iload =>
      idx ← rd (code m) (pc_plus pc 1);
      v ← rd locals (u1 idx);
      os' ← st os sc v;
      continue (pc_plus pc 2) os' (sc + 1) locals w
  | Some i_iload_0 | Some i_iload_1 | Some i_iload_2 | Some i_iload_3 =>
      v ← rd locals (u1 opc - opcode i_iload_0);
      os' ← st os sc v;
      continue (pc_plus pc 1) os' (sc + 1) locals w
  | Some i_istore =>
      idx ← rd (code m) (pc_plus pc 1);
      v ← ld os (sc - 1);
      locals' ← wr locals (u1 idx) v;
      continue (pc_plus pc 2) os (sc - 1) locals' w
  | Some i_istore_0 | Some i_istore_1 | Some i_istore_2 | Some i_istore_3 =>
      v ← ld os (sc - 1);
      locals' ← wr locals (u1 opc - opcode i_istore_0) v;
      continue (pc_plus pc 1) os (sc - 1) locals' w
  | Some i_iinc =>
      idx ← rd (code m) (pc_plus pc 1);
      imm ← rd (code m) (pc_plus pc 2);
      old ← rd locals (u1 idx);
      locals' ← wr locals (u1 idx) (to_int32 (old + to_int8 (u1 imm)));
      continue (pc_plus pc 3) os sc locals' w
  | Some i_ldc =>
      b ← rd (code m) (pc_plus pc 1);
      entry ← rd (constant_pool cls) (u1 b - 1);
      v ← integer_bytes entry;
      os' ← st os sc v;
      continue (pc_plus pc 2) os' (sc + 1) locals w
  | Some i_ifeq =>
      v ← ld os (sc - 1);
      pc' ← branch m pc (v =? 0);
      continue pc' os (sc - 1) locals w
  | Some i_ifne =>
      v ← ld os (sc - 1);
      pc' ← branch m pc (negb (v =? 0));
      continue pc' os (sc - 1) locals w
  | Some i_iflt =>
      v ← ld os (sc - 1);
      pc' ← branch m pc (v <? 0);
      continue pc' os (sc - 1) locals w
  | Some i_ifge =>
      v ← ld os (sc - 1);
      pc' ← branch m pc (v >=? 0);
      continue pc' os (sc - 1) locals w
  | Some i_ifgt =>
      v ← ld os (sc - 1);
      pc' ← branch m pc (v >? 0);
      continue pc' os (sc - 1) locals w
  | Some i_ifle =>
      v ← ld os (sc - 1);
      pc' ← branch m pc (v <=? 0);
      continue pc' os (sc - 1) locals w
  | Some i_if_icmpeq =>
      a ← ld os (sc - 2);
      b ← ld os (sc - 1);
      pc' ← branch m pc (a =? b);
      continue pc' os (sc - 2) locals w
  | Some i_if_icmpne =>
      a ← ld os (sc - 2);
      b ← ld os (sc - 1);
      pc' ← branch m pc (negb (a =? b));
      continue pc' os (sc - 2) locals w
  | Some i_if_icmplt =>
      a ← ld os (sc - 2);
      b ← ld os (sc - 1);
      pc' ← branch m pc (a <? b);
      continue pc' os (sc - 2) locals w
  | Some i_if_icmpge =>
      a ← ld os (sc - 2);
      b ← ld os (sc - 1);
      pc' ← branch m pc (a >=? b);
      continue pc' os (sc - 2) locals w
  | Some i_if_icmpgt =>
      a ← ld os (sc - 2);
      b ← ld os (sc - 1);
      pc' ← branch m pc (a >? b);
      continue pc' os (sc - 2) locals w
  | Some i_if_icmple =>
      a ← ld os (sc - 2);
      b ← ld os (sc - 1);
      pc' ← branch m pc (a <=? b);
      continue pc' os (sc - 2) locals w
  | Some i_goto =>
      pc' ← branch m pc true;
      continue pc' os sc locals w
  | Some i_ireturn =>
      v ← ld os (sc - 1);
      Ok (Returned (OptionalValue true v) w)
  | Some i_invokestatic =>
      b1 ← rd (code m) (pc_plus pc 1);
      b2 ← rd (code m) (pc_plus pc 2);
      let index := invokestatic_index b1 b2 in
      meth ← deref (find_method_from_index index cls);
      let len := get_number_of_parameters meth in
      let locals_queue := calloc (max_locals meth) in
      '(locals_queue, sc) ← pop len locals_queue os sc;
      '(res, w) ← exec meth locals_queue w;
      if has_value res then
        os' ← st os sc (value res);
        continue (pc_plus pc 3) os' (sc + 1) locals w
      else
        continue (pc_plus pc 3) os sc locals w
  | Some i_nop => continue (pc_plus pc 1) os sc locals w
  | Some i_dup =>
      v ← ld os (sc - 1);
      os' ← st os sc v;
      continue (pc_plus pc 1) os' (sc + 1) locals w
  | Some i_newarray =>
      count ← ld os (sc - 1);
      size ← c_size count;
      c_assert (size >? 0);;
      new_array ← wr (calloc size) 0 count;
      new_array ← zero_fill (Z.to_nat count) 1 new_array;
      let '(h, ref) := heap_add (heap w) new_array in
      os' ← st os (sc - 1) ref;
      continue (pc_plus pc 2) os' sc locals (World h (stdout w))
  | Some i_arraylength =>
      ref ← ld os (sc - 1);
      arr ← heap_get (heap w) ref;
      count ← rd arr 0;
      os' ← st os (sc - 1) count;
      continue (pc_plus pc 1) os' sc locals w
  | Some i_areturn =>
      ref ← ld os (sc - 1);
      Ok (Returned (OptionalValue true ref) w)
  | Some i_iaload =>
      index ← ld os (sc - 1);
      ref ← ld os (sc - 2);
      arr ← heap_get (heap w) ref;
      v ← rd arr (to_int32 (index + 1));
      os' ← st os (sc - 2) v;
      continue (pc_plus pc 1) os' (sc - 1) locals w
  | Some i_aload =>
      idx ← rd (code m) (pc_plus pc 1);
      v ← rd locals (u1 idx);
      os' ← st os sc v;
      continue (pc_plus pc 2) os' (sc + 1) locals w
  | Some i_aload_0 | Some i_aload_1 | Some i_aload_2 | Some i_aload_3 =>
      v ← rd locals (u1 opc - opcode i_aload_0);
      os' ← st os sc v;
      continue (pc_plus pc 1) os' (sc + 1) locals w
  | Some i_iastore =>
      v ← ld os (sc - 1);
      index ← ld os (sc - 2);
      ref ← ld os (sc - 3);
      arr ← heap_get (heap w) ref;
      arr' ← wr arr (to_int32 (index + 1)) v;
      h ← heap_set (heap w) ref arr';
      continue (pc_plus pc 1) os (sc - 3) locals (World h (stdout w))
  | Some i_astore =>
      idx ← rd (code m) (pc_plus pc 1);
      v ← ld os (sc - 1);
      locals' ← wr locals (u1 idx) v;
      continue (pc_plus pc 2) os (sc - 1) locals' w
  | Some i_astore_0 | Some i_astore_1 | Some i_astore_2 | Some i_astore_3 =>
      v ← ld os (sc - 1);
      locals' ← wr locals (u1 opc - opcode i_astore_0) v;
      continue (pc_plus pc 1) os (sc - 1) locals' w
  end.

(** One turn of the loop, every access inside the block it is made to: an
    access outside it is [Undefined]. *)
Definition step : callee -> class_file_t -> method_t -> frame -> world ->
    result step_result :=
  step_with rd wr pop_arguments.

(** The same turn as the compiled handlers run it when a word next to the
    operand stack is reached: the code checks no index, a read of
    [operand_stack[i]] outside the block yields whatever word [junk] lies
    there, and a store outside it leaves the block as it was. *)
Definition peek (junk : Z) (os : list Z) (i : Z) : result Z :=
  match rd os i with
  | Ok v => Ok v
  | Err _ => Ok junk
  end.

Definition poke (os : list Z) (i : Z) (v : Z) : result (list Z) :=
  match wr os i v with
  | Ok os' => Ok os'
  | Err _ => Ok os
  end.

Fixpoint pop_arguments_raw (junk : Z) (len : nat) (locals_queue os : list Z)
    (sc : Z) : result (list Z * Z) :=
  match len with
  | O => Ok (locals_queue, sc)
  | S i =>
      v ← peek junk os (sc - 1);
      locals_queue' ← wr locals_queue (Z.of_nat i) v;
      pop_arguments_raw junk i locals_queue' os (sc - 1)
  end.

Definition step_raw (junk : Z) : callee -> class_file_t -> method_t ->
    frame -> world -> result step_result :=
  step_with (peek junk) poke (pop_arguments_raw junk).

(** The frame [execute] starts from: [pc = 0], a zeroed operand stack of
    [max_stack] words, [stack_count = 0]. *)
Definition init_frame (m : method_t) (locals : list Z) : frame :=
  Frame 0 (calloc (max_stack m)) 0 locals.

(** The [while (pc < code_length)] loop, at most [fuel] turns deep
    (nested activations included). *)
Fixpoint run (fuel : nat) (cls : class_file_t) (m : method_t) (f : frame)
    (w : world) : result (optional_value_t * world) :=
  match fuel with
  | O => Err OutOfFuel
  | S n =>
      if decide (pc f < code_length m) then
        r ← step (fun meth l w' => run n cls meth (init_frame meth l) w')
              cls m f w;
        match r with
        | Continue f' w' => run n cls m f' w'
        | Returned v w' => Ok (v, w')
        end
      else Ok (void_result, w)
  end.

Definition execute (fuel : nat) (method : method_t) (locals : list Z)
    (cls : class_file_t) (w : world) : result (optional_value_t * world) :=
  run fuel cls method (init_frame method locals) w.

(** What [main] leaves when it returns: its exit status, what the run
    printed on standard output, and the lines written to standard error. *)
Record exit_t : Type := Exit {
  exit_status : Z;
  printed : list Z;
  complaints : list string
}.

(** [main(argc, argv)], with [argc] the length of [argv]: the usage message
    and status 1 unless there is exactly one argument; then the class file
    is opened, parsed and closed, the heap is empty, [main()] is looked up
    and must exist, its locals are zeroed, and it must return no value;
    falling off the end of [main] is status 0. *)
Definition main (fuel : nat) (argv : list string) : result exit_t :=
  let argc := Z.of_nat (length argv) in
  if negb (argc =? 2) then
    name ← rd argv 0;
    mret (Exit 1 [] [("USAGE: " ++ name ++ " <class file>" ++ newline)%string])
  else
    path ← rd argv 1;
    let class_file := fopen path in
    c_assert (bool_decide (is_Some class_file));;
    class_file ← deref class_file;
    let cls := get_class class_file in
    let error := fclose class_file in
    c_assert (error =? 0);;
    let heap := heap_init in
    let main_method := find_method MAIN_METHOD MAIN_DESCRIPTOR cls in
    c_assert (bool_decide (is_Some main_method));;
    main_method ← deref main_method;
    let locals := calloc (max_locals main_method) in
    '(res, w) ← execute fuel main_method locals cls (World heap []);
    c_assert (negb (has_value res));;
    mret (Exit 0 (stdout w) []).

(** ** The instruction at [pc] *)

Definition fetch (m : method_t) (f : frame) : result (option jvm_instruction_t) :=
  opc ← rd (code m) (pc f);
  mret (decode opc).

(** [pc] is inside the code, whose length is a [u4]. *)
Definition pc_valid (m : method_t) (f : frame) : Prop :=
  0 <= pc f < code_length m /\ code_length m <= 4294967295.

(** ** Notions used by the properties *)

(** The block [newarray] builds for a count [count]. *)
Definition fresh_array (count : Z) : list Z :=
  count :: replicate (Z.to_nat count) 0.

(** The count recorded in slot 0 of the array under [ref]. *)
Definition slot0 (h : heap_t) (ref : Z) : result Z :=
  arr ← heap_get h ref;
  rd arr 0.

(** [ref] names an array of [count] elements, laid out as [newarray] builds
    it: [count + 1] words, the first holding [count]. *)
Definition is_array (h : heap_t) (ref count : Z) : Prop :=
  exists arr,
    heap_get h ref = Ok arr /\
    Z.of_nat (length arr) = count + 1 /\
    rd arr 0 = Ok count /\
    is_int32 count.

(** The conditions of the one-operand branches, as the specification lists
    them. *)
Definition unary_condition (i : jvm_instruction_t) : option (Z -> bool) :=
  match i with
  | i_ifeq => Some (fun v => bool_decide (v = 0))
  | i_ifne => Some (fun v => bool_decide (v <> 0))
  | i_iflt => Some (fun v => bool_decide (v < 0))
  | i_ifge => Some (fun v => bool_decide (0 <= v))
  | i_ifgt => Some (fun v => bool_decide (0 < v))
  | i_ifle => Some (fun v => bool_decide (v <= 0))
  | _ => None
  end.

(** The conditions of the two-operand branches: [a] was pushed before [b]. *)
Definition binary_condition (i : jvm_instruction_t) : option (Z -> Z -> bool) :=
  match i with
  | i_if_icmpeq => Some (fun a b => bool_decide (a = b))
  | i_if_icmpne => Some (fun a b => bool_decide (a <> b))
  | i_if_icmplt => Some (fun a b => bool_decide (a < b))
  | i_if_icmpge => Some (fun a b => bool_decide (b <= a))
  | i_if_icmpgt => Some (fun a b => bool_decide (b < a))
  | i_if_icmple => Some (fun a b => bool_decide (a <= b))
  | _ => None
  end.

(** The cursor is inside the block, and the block is the [max_stack] words
    that [execute] allocates. *)
Definition stack_in_bounds (m : method_t) (f : frame) : Prop :=
  Z.of_nat (length (operand_stack f)) = max_stack m /\
  0 <= stack_count f <= max_stack m.

(** The instruction boundaries of one activation of [execute] on [m]: the
    entry, and what each turn of the loop leaves.  A turn that has no defined
    behaviour (an access outside [operand_stack], which is what a [max_stack]
    too small for the code comes to) leaves no boundary. *)
Inductive boundary (exec : callee) (cls : class_file_t) (m : method_t)
    (locals0 : list Z) (w0 : world) : frame -> world -> Prop :=
  | boundary_entry :
      boundary exec cls m locals0 w0 (init_frame m locals0) w0
  | boundary_next (f : frame) (w : world) (f' : frame) (w' : world) :
      boundary exec cls m locals0 w0 f w ->
      pc f < code_length m ->
      step exec cls m f w = Ok (Continue f' w') ->
      boundary exec cls m locals0 w0 f' w'.

(** What the specification says of a load of local [k] by an instruction
    [len] bytes long: push [locals[k]], advance [pc] by [len], touch nothing
    else. *)
Definition load_local (k len : Z) (f : frame) (w : world)
    : result step_result :=
  v ← rd (locals f) k;
  os' ← wr (operand_stack f) (stack_count f) v;
  continue (pc_plus (pc f) len) os' (stack_count f + 1) (locals f) w.

(** The instruction at [pc] is an [iastore] through the reference [r] whose
    index operand addresses slot 0 of the backing array (index [-1]). *)
Definition stores_slot0 (m : method_t) (f : frame) (r : Z) : Prop :=
  exists index,
    fetch m f = Ok (Some i_iastore) /\
    rd (operand_stack f) (stack_count f - 3) = Ok r /\
    rd (operand_stack f) (stack_count f - 2) = Ok index /\
    to_int32 (index + 1) = 0.

(** A callee that leaves the count recorded under [r] as it found it. *)
Definition callee_keeps_slot0 (exec : callee) (r c : Z) : Prop :=
  forall meth l w0 res w1,
    exec meth l w0 = Ok (res, w1) ->
    slot0 (heap w0) r = Ok c -> slot0 (heap w1) r = Ok c.

(** A result that the bound on the loop did not cut short. *)
Definition settled {A : Type} (r : result A) : Prop := r <> Err OutOfFuel.

(** ** Sample inputs *)

(** A method over the code bytes [bytes], its [code_length] their number. *)
Definition method_of (stack_words local_words : Z) (bytes : list Z)
    : method_t :=
  Method stack_words local_words (Z.of_nat (length bytes))
    (map byte_of bytes).

(** A class without methods, and a callee that returns at once. *)
Definition no_methods : Z -> class_file_t -> option method_t :=
  fun _ _ => None.
Definition no_parameters : method_t -> nat := fun _ => 0%nat.
Definition void_callee : callee := fun _ _ w => Ok (void_result, w).
Definition empty_class : class_file_t := ClassFile [].
Definition empty_world : world := World heap_init [].

(** A class whose [main()] is [m]. *)
Definition main_is (m : method_t)
    : string -> string -> class_file_t -> option method_t :=
  fun name descriptor _ =>
    if (String.eqb name MAIN_METHOD &&
        String.eqb descriptor MAIN_DESCRIPTOR)%bool
    then Some m else None.

(** A host on which every path opens a file that parses to the empty class
    and closes without error, and the command line [jvm Main.class]. *)
Definition open_class : string -> option class_file_t :=
  fun _ => Some empty_class.
Definition parse_class : class_file_t -> class_file_t := fun cls => cls.
Definition close_class : class_file_t -> Z := fun _ => 0.
Definition command_line : list string := ["jvm"; "Main.class"]%string.



(** [newarray] with its [atype] byte, [iastore], [iaload], [arraylength]. *)
Definition newarray_method : method_t := method_of 1 0 [0xbc; 10].
Definition iastore_method : method_t := method_of 3 0 [0x4f].
Definition iaload_method : method_t := method_of 2 0 [0x2e].
Definition arraylength_method : method_t := method_of 1 0 [0xbe].

(** [ifeq +5] at 0; [if_icmplt +6] at 0; [ifne -3] at 3. *)
Definition ifeq_method : method_t := method_of 1 0 [0x99; 0; 5; 0; 0; 0xb1].
Definition if_icmplt_method : method_t :=
  method_of 2 0 [0xa1; 0; 6; 0; 0; 0; 0xb1].
Definition ifne_back_method : method_t :=
  method_of 1 0 [0; 0; 0; 0x9a; 0xff; 0xfd].

(** [static int sub(int a, int b) { return a - b; }] and a caller of it
    through constant-pool index 2. *)
Definition sub_method : method_t := method_of 2 2 [0x1a; 0x1b; 0x64; 0xac].
Definition sub_caller : method_t := method_of 2 0 [0xb8; 0; 2; 0xb1].
Definition sub_class_methods : Z -> class_file_t -> option method_t :=
  fun index _ => if index =? 2 then Some sub_method else None.
Definition two_parameters : method_t -> nat := fun _ => 2%nat.

(** A caller whose operand bytes are [0x80 0x00], and classes that resolve
    its callee under the index [-32768] only, under [32768] only, and under
    every index. *)
Definition high_index_caller : method_t := method_of 1 0 [0xb8; 0x80; 0; 0xb1].
Definition return_method : method_t := method_of 0 0 [0xb1].
Definition signed_index_methods : Z -> class_file_t -> option method_t :=
  fun index _ => if index =? -32768 then Some return_method else None.
Definition unsigned_index_methods : Z -> class_file_t -> option method_t :=
  fun index _ => if index =? 32768 then Some return_method else None.
Definition every_index_methods : Z -> class_file_t -> option method_t :=
  fun _ _ => Some return_method.

Definition unknown_byte_method : method_t := method_of 1 0 [0xff].

(** [iload 0] and [aload 0]; [iload_2] and [aload_2]. *)
Definition iload_method : method_t := method_of 1 1 [0x15; 0].
Definition aload_method : method_t := method_of 1 1 [0x19; 0].
Definition iload_2_method : method_t := method_of 1 3 [0x1c].
Definition aload_2_method : method_t := method_of 1 3 [0x2c].

(** ** What a run does to the world *)

(** The world a turn leaves. *)
Definition world_of (r : step_result) : world :=
  match r with
  | Continue _ w => w
  | Returned _ w => w
  end.

(** Every call that the callee completes relates the world it was given to
    the world it leaves by [R]. *)
Definition callee_respects (R : world -> world -> Prop) (exec : callee)
    : Prop :=
  forall meth l w res w', exec meth l w = Ok (res, w') -> R w w'.

(** [h'] holds every array of [h] under the same reference, at the same
    length, and possibly more arrays. *)
Definition heap_extends (h h' : heap_t) : Prop :=
  (length h <= length h')%nat /\
  forall ref arr,
    heap_get h ref = Ok arr ->
    exists arr', heap_get h' ref = Ok arr' /\ length arr' = length arr.

(** Standard output only gained lines. *)
Definition output_extends (out out' : list Z) : Prop :=
  exists printed, out' = out ++ printed.

(** ** Arithmetic, as integers *)

(** The exact result of the three wrapping handlers, before it is reduced to
    32 bits. *)
Definition exact_result (i : jvm_instruction_t) : option (Z -> Z -> Z) :=
  match i with
  | i_iadd => Some (fun a b => a + b)
  | i_isub => Some (fun a b => a - b)
  | i_imul => Some (fun a b => a * b)
  | _ => None
  end.

(** An 8-bit and a 16-bit pattern read as a two's-complement number. *)
Definition signed8 (z : Z) : Z := if decide (z < 128) then z else z - 256.
Definition signed16 (z : Z) : Z := if decide (z < 32768) then z else z - 65536.

(** [idiv], [irem], [ishr], [iushr], [ineg], [bipush], [sipush], [istore]
    and [iload] alone. *)
Definition idiv_method : method_t := method_of 2 0 [0x6c].
Definition irem_method : method_t := method_of 2 0 [0x70].
Definition ishr_method : method_t := method_of 2 0 [0x7a].
Definition iushr_method : method_t := method_of 2 0 [0x7c].
Definition ineg_method : method_t := method_of 1 0 [0x74].
Definition isub_method : method_t := method_of 2 0 [0x64].
Definition bipush_method : method_t := method_of 1 0 [0x10; 0xff].
Definition sipush_method : method_t := method_of 1 0 [0x11; 0xff; 0xfe].
Definition istore_iload_method : method_t := method_of 1 2 [0x36; 1; 0x15; 1].

(** [iinc 1 5; iinc 1 -5], [goto -1], [goto +3] at the end of the code, and
    [ldc 1]. *)
Definition iinc_method : method_t := method_of 0 2 [0x84; 1; 5; 0x84; 1; 0xfb].
Definition goto_back_method : method_t := method_of 0 0 [0xa7; 0xff; 0xff].
Definition goto_method : method_t := method_of 0 0 [0xa7; 0; 4; 0; 0xb1].
Definition ldc_method : method_t := method_of 1 0 [0x12; 1].
Definition ldc_class : class_file_t :=
  ClassFile [CONSTANT_Integer_info 100000; CONSTANT_other].

(** [ireturn] and [areturn]; [istore 1] and [astore 1]; [istore_1] and
    [astore_1]. *)
Definition ireturn_method : method_t := method_of 1 0 [0xac].
Definition areturn_method : method_t := method_of 1 0 [0xb0].
Definition istore_method : method_t := method_of 1 2 [0x36; 1].
Definition astore_method : method_t := method_of 1 2 [0x3a; 1].
Definition istore_1_method : method_t := method_of 1 2 [0x3c].
Definition astore_1_method : method_t := method_of 1 2 [0x4c].

(** What the specification says of a store into local [k] by an
    instruction [len] bytes long: pop the top of the stack into [locals[k]],
    advance [pc] by [len], touch nothing else. *)
Definition store_local (k len : Z) (f : frame) (w : world)
    : result step_result :=
  v ← rd (operand_stack f) (stack_count f - 1);
  ls' ← wr (locals f) k v;
  continue (pc_plus (pc f) len) (operand_stack f) (stack_count f - 1) ls' w.

(** What it says of a return with a value: hand the top of the stack to the
    caller. *)
Definition return_top (f : frame) (w : world) : result step_result :=
  v ← rd (operand_stack f) (stack_count f - 1);
  Ok (Returned (OptionalValue true v) w).

(** ** Words *)

(** Every word of the frame's two blocks is a 32-bit integer. *)
Definition frame_int32 (f : frame) : Prop :=
  Forall is_int32 (operand_stack f) /\ Forall is_int32 (locals f).

(** Every word of every array is a 32-bit integer. *)
Definition heap_int32 (h : heap_t) : Prop := Forall (Forall is_int32) h.

(** The integer constants of the class are 32-bit integers. *)
Definition pool_int32 (cls : class_file_t) : Prop :=
  forall v, CONSTANT_Integer_info v ∈ constant_pool cls -> is_int32 v.

(** What a turn leaves holds 32-bit integers only. *)
Definition result_int32 (r : step_result) : Prop :=
  match r with
  | Continue f w => frame_int32 f /\ heap_int32 (heap w)
  | Returned v w => is_int32 (value v) /\ heap_int32 (heap w)
  end.

(** A callee that, given 32-bit words, leaves 32-bit words, as long as the
    heap it leaves holds no more than [bound] arrays. *)
Definition callee_int32 (bound : Z) (exec : callee) : Prop :=
  forall meth l w res w',
    Forall is_int32 l ->
    heap_int32 (heap w) ->
    exec meth l w = Ok (res, w') ->
    Z.of_nat (length (heap w')) <= bound ->
    is_int32 (value res) /\ heap_int32 (heap w').

(** ** Stack effect and length of the instructions *)

(** The change of [stack_count] over one instruction, as the instruction set
    defines it ([invokestatic] apart, whose effect depends on the callee;
    for the returns, which leave no frame, the entry is not used). *)
Definition stack_effect (i : jvm_instruction_t) : Z :=
  match i with
  | i_iconst_m1 | i_iconst_0 | i_iconst_1 | i_iconst_2 | i_iconst_3
  | i_iconst_4 | i_iconst_5 | i_bipush | i_sipush | i_ldc
  | i_iload | i_aload | i_iload_0 | i_iload_1 | i_iload_2 | i_iload_3
  | i_aload_0 | i_aload_1 | i_aload_2 | i_aload_3 | i_dup => 1
  | i_nop | i_ineg | i_iinc | i_goto | i_getstatic | i_newarray
  | i_arraylength | i_invokestatic | i_ireturn | i_areturn | i_return => 0
  | i_if_icmpeq | i_if_icmpne | i_if_icmplt | i_if_icmpge | i_if_icmpgt
  | i_if_icmple => -2
  | i_iastore => -3
  | _ => -1
  end.

(** The length in bytes of the instructions that fall through to the next
    one. *)
Definition instruction_length (i : jvm_instruction_t) : option Z :=
  match i with
  | i_ifeq | i_ifne | i_iflt | i_ifge | i_ifgt | i_ifle
  | i_if_icmpeq | i_if_icmpne | i_if_icmplt | i_if_icmpge | i_if_icmpgt
  | i_if_icmple | i_goto | i_ireturn | i_areturn | i_return => None
  | i_sipush | i_iinc | i_getstatic | i_invokevirtual | i_invokestatic =>
      Some 3
  | i_bipush | i_ldc | i_iload | i_aload | i_istore | i_astore
  | i_newarray => Some 2
  | _ => Some 1
  end.

(** [getstatic; iconst_5; invokevirtual; return] and [invokevirtual] alone. *)
Definition print_method : method_t :=
  method_of 1 1 [0xb2; 0; 0; 0x08; 0xb6; 0; 0; 0xb1].
Definition invokevirtual_method : method_t := method_of 1 0 [0xb6; 0; 0].

(** [iconst_m1] and [iconst_5]; an allocation with a live heap; a product
    that overflows. *)
Definition iconst_m1_method : method_t := method_of 1 0 [0x02].
Definition allocate_method : method_t := method_of 1 0 [0x10; 3; 0xbc; 10; 0xb1].
Definition overflow_method : method_t :=
  method_of 2 0 [0x11; 0x7f; 0xff; 0x59; 0x68; 0x59; 0x68; 0xac].
Definition bipush_istore_method : method_t :=
  method_of 1 2 [0x10; 7; 0x36; 1].

(** ** Basic facts *)

Lemma u1_range (b : byte) : 0 <= u1 b <= 255.
Proof.
  unfold u1. pose proof (Byte.to_N_bounded b) as Hb. lia.
Qed.

Lemma u1_byte_of (z : Z) : 0 <= z <= 255 -> u1 (byte_of z) = z.
Proof.
  intros Hz. unfold u1, byte_of.
  destruct (Byte.of_N (Z.to_N z)) as [b|] eqn:E.
  - apply Byte.to_of_N in E. rewrite E. lia.
  - apply Byte.of_N_None_iff in E. lia.
Qed.

Lemma decode_sound (b : byte) (i : jvm_instruction_t) :
  decode b = Some i -> u1 b = opcode i.
Proof.
  unfold decode. intros H. apply List.find_some in H as [_ H]. lia.
Qed.

Lemma decode_opcode (i : jvm_instruction_t) : decode (byte_of (opcode i)) = Some i.
Proof. destruct i; reflexivity. Qed.

Lemma decode_complete (b : byte) (i : jvm_instruction_t) :
  u1 b = opcode i -> decode b = Some i.
Proof.
  intros H. unfold decode. rewrite H. destruct i; reflexivity.
Qed.

Lemma rd_Ok {A : Type} (a : list A) (i : Z) (v : A) :
  rd a i = Ok v <-> 0 <= i /\ a !! Z.to_nat i = Some v.
Proof.
  unfold rd. case_decide.
  - destruct (a !! Z.to_nat i) eqn:E; split; intros H'.
    + inversion H'; subst. auto.
    + destruct H' as [_ H']. congruence.
    + discriminate.
    + destruct H' as [_ H']. discriminate.
  - split; [discriminate | lia].
Qed.

Lemma rd_bounds {A : Type} (a : list A) (i : Z) (v : A) :
  rd a i = Ok v -> 0 <= i < Z.of_nat (length a).
Proof.
  intros [H0 H]%rd_Ok. apply lookup_lt_Some in H. lia.
Qed.

Lemma wr_Ok {A : Type} (a a' : list A) (i : Z) (v : A) :
  wr a i v = Ok a' <->
  0 <= i < Z.of_nat (length a) /\ a' = <[Z.to_nat i := v]> a.
Proof.
  unfold wr. case_decide; split.
  - intros H'. inversion H'. auto.
  - intros [_ ->]. reflexivity.
  - discriminate.
  - lia.
Qed.

Lemma wr_in_bounds {A : Type} (a : list A) (i : Z) (v : A) :
  0 <= i < Z.of_nat (length a) -> wr a i v = Ok (<[Z.to_nat i := v]> a).
Proof. intros H. apply wr_Ok. auto. Qed.

Lemma wr_length {A : Type} (a a' : list A) (i : Z) (v : A) :
  wr a i v = Ok a' -> length a' = length a.
Proof. intros [_ ->]%wr_Ok. apply length_insert. Qed.

Lemma wr_after_rd {A : Type} (a : list A) (i : Z) (v v' : A) :
  rd a i = Ok v -> wr a i v' = Ok (<[Z.to_nat i := v']> a).
Proof. intros H. apply wr_in_bounds. eapply rd_bounds, H. Qed.

Lemma rd_wr_same {A : Type} (a a' : list A) (i : Z) (v : A) :
  wr a i v = Ok a' -> rd a' i = Ok v.
Proof.
  intros [Hi ->]%wr_Ok. apply rd_Ok. split; [lia|].
  apply list_lookup_insert_eq. lia.
Qed.


Lemma to_int32_id (z : Z) : is_int32 z -> to_int32 z = z.
Proof.
  unfold is_int32, INT32_MIN, INT32_MAX, to_int32, wrap. intros H.
  rewrite Z.mod_small; lia.
Qed.

Lemma to_int32_range (z : Z) : is_int32 (to_int32 z).
Proof.
  unfold is_int32, INT32_MIN, INT32_MAX, to_int32, wrap.
  pose proof (Z.mod_pos_bound (z + 2 ^ (32 - 1)) (2 ^ 32)). lia.
Qed.

Lemma pc_plus_small (p k : Z) :
  0 <= p + k < 2 ^ 64 -> pc_plus p k = p + k.
Proof. intros H. unfold pc_plus, to_size_t. apply Z.mod_small. lia. Qed.

Lemma be16_value (b1 b2 : byte) : be16 b1 b2 = u1 b1 * 256 + u1 b2.
Proof.
  unfold be16. pose proof (u1_range b1). pose proof (u1_range b2).
  rewrite Z.shiftl_mul_pow2 by lia.
  assert (Hland : Z.land (u1 b1 * 2 ^ 8) (u1 b2) = 0).
  { apply Z.bits_inj'. intros n Hn. rewrite Z.land_spec, Z.bits_0.
    destruct (decide (n < 8)).
    - rewrite Z.mul_pow2_bits_low by lia. reflexivity.
    - destruct (decide (u1 b2 = 0)) as [->|].
      + rewrite Z.bits_0. apply andb_false_r.
      + rewrite (Z.bits_above_log2 (u1 b2) n); [apply andb_false_r|lia|].
        apply Z.log2_lt_pow2; [lia|].
        apply Z.lt_le_trans with (2 ^ 8); [lia|].
        apply Z.pow_le_mono_r; lia. }
  rewrite <- Z.lxor_lor, <- Z.add_nocarry_lxor by exact Hland. lia.
Qed.

Lemma fetch_Ok (m : method_t) (f : frame) (i : jvm_instruction_t) :
  fetch m f = Ok (Some i) <->
  exists opc, rd (code m) (pc f) = Ok opc /\ decode opc = Some i.
Proof.
  unfold fetch. split.
  - destruct (rd (code m) (pc f)); simpl; [|discriminate].
    intros H. inversion H. eauto.
  - intros (opc & -> & <-). reflexivity.
Qed.

Lemma fetch_unhandled (m : method_t) (f : frame) :
  fetch m f = Ok None <->
  exists opc, rd (code m) (pc f) = Ok opc /\ decode opc = None.
Proof.
  unfold fetch. split.
  - destruct (rd (code m) (pc f)); simpl; [|discriminate].
    intros H. inversion H. eauto.
  - intros (opc & -> & <-). reflexivity.
Qed.

(** Rewrites the handler selected by [fetch m f = Ok (Some i)] into the goal. *)
Ltac enter_handler H :=
  let opc := fresh "opc" in
  let Hopc := fresh "Hopc" in
  let Hdec := fresh "Hdec" in
  apply fetch_Ok in H as (opc & Hopc & Hdec);
  unfold step, step_with; simpl in *; rewrite Hopc; simpl; rewrite Hdec.

(** ** Shifts *)




(** ** Arrays *)

Lemma zero_fill_zeros (n : nat) (i : Z) (a : list Z) :
  0 <= i ->
  (forall k : nat, i <= Z.of_nat k < i + Z.of_nat n -> a !! k = Some 0) ->
  zero_fill n i a = Ok a.
Proof.
  revert i. induction n as [|n IH]; intros i Hi Hz; [reflexivity|].
  simpl. assert (Hlook : a !! Z.to_nat i = Some 0) by (apply Hz; lia).
  rewrite wr_in_bounds by (apply lookup_lt_Some in Hlook; lia).
  simpl. rewrite list_insert_id by exact Hlook.
  apply IH; [lia|]. intros k Hk. apply Hz. lia.
Qed.

Lemma new_array_built (count : Z) :
  0 <= count < INT32_MAX ->
  (new_array ← wr (calloc (count + 1)) 0 count;
   zero_fill (Z.to_nat count) 1 new_array) = Ok (fresh_array count).
Proof.
  unfold INT32_MAX. intros Hc.
  unfold calloc. replace (Z.to_nat (count + 1)) with (S (Z.to_nat count)) by lia.
  simpl replicate. rewrite wr_in_bounds by (simpl; lia). simpl.
  apply zero_fill_zeros; [lia|].
  intros k Hk. destruct k as [|k]; [lia|]. simpl.
  apply lookup_replicate_2. lia.
Qed.

Lemma heap_get_fresh (h : heap_t) (arr : list Z) :
  heap_get h (Z.of_nat (length h)) = Err Undefined /\
  heap_get (h ++ [arr]) (Z.of_nat (length h)) = Ok arr.
Proof.
  unfold heap_get. split.
  - unfold rd. rewrite decide_True by lia.
    rewrite Nat2Z.id, (lookup_ge_None_2 h) by lia. reflexivity.
  - apply rd_Ok. split; [lia|]. rewrite Nat2Z.id.
    rewrite lookup_app_r by lia. rewrite Nat.sub_diag. reflexivity.
Qed.

(** The turn of [newarray] on a count in [0 .. 2^31 - 2]. *)
Lemma newarray_allocates (exec : callee) (cls : class_file_t) (m : method_t)
    (f : frame) (w : world) (count : Z) :
  fetch m f = Ok (Some i_newarray) ->
  rd (operand_stack f) (stack_count f - 1) = Ok count ->
  0 <= count < INT32_MAX ->
  step exec cls m f w =
    Ok (Continue
          (Frame (pc_plus (pc f) 2)
             (<[Z.to_nat (stack_count f - 1) := Z.of_nat (length (heap w))]>
                (operand_stack f))
             (stack_count f) (locals f))
          (World (heap w ++ [fresh_array count]) (stdout w))).
Proof.
  intros Hf Hc Hrange. destruct f as [p os sc ls].
  enter_handler Hf. rewrite Hc. simpl.
  unfold c_size. rewrite decide_True by lia. simpl.
  destruct (Z.gtb_spec (count + 1) 0) as [_|]; [simpl|lia].
  assert (Hnew := new_array_built count Hrange).
  destruct (wr (calloc (count + 1)) 0 count) as [a0|e] eqn:Ea;
    simpl in Hnew |- *; [|discriminate Hnew].
  rewrite Hnew. simpl.
  rewrite (wr_after_rd _ _ _ _ Hc). reflexivity.
Qed.

(** C5 (as amended): [newarray] pops [count] and asserts [count + 1 > 0].
    For every [0 <= count < 2^31 - 1] the assertion succeeds: a fresh block
    of [count + 1] words is built, slot 0 holding [count] and slots
    [1..count] holding 0; it is registered with the heap under a reference
    that named nothing before, and that reference replaces the top of the
    stack.  For every [count < 0] the assertion fails. *)
Theorem newarray_spec (exec : callee) (cls : class_file_t) (m : method_t)
    (f : frame) (w : world) (count : Z) :
  fetch m f = Ok (Some i_newarray) ->
  rd (operand_stack f) (stack_count f - 1) = Ok count ->
  is_int32 count ->
  (0 <= count < INT32_MAX ->
     let ref := Z.of_nat (length (heap w)) in
     let arr := fresh_array count in
     step exec cls m f w =
       Ok (Continue
             (Frame (pc_plus (pc f) 2)
                (<[Z.to_nat (stack_count f - 1) := ref]> (operand_stack f))
                (stack_count f) (locals f))
             (World (heap w ++ [arr]) (stdout w)))
     /\ heap_get (heap w) ref = Err Undefined
     /\ heap_get (heap w ++ [arr]) ref = Ok arr
     /\ Z.of_nat (length arr) = count + 1
     /\ rd arr 0 = Ok count
     /\ (forall i, 1 <= i <= count -> rd arr i = Ok 0))
  /\ (count < 0 -> step exec cls m f w = Err AssertFail).
Proof.
  intros Hf Hc Hint. split; intros Hrange.
  - cbv zeta. split; [apply newarray_allocates; assumption|].
    pose proof (heap_get_fresh (heap w) (fresh_array count)) as [Hno Hyes].
    split; [exact Hno|]. split; [exact Hyes|]. split_and!.
    + unfold fresh_array. simpl. rewrite length_replicate. lia.
    + reflexivity.
    + intros i Hi. apply rd_Ok. split; [lia|]. unfold fresh_array.
      replace (Z.to_nat i) with (S (Z.to_nat (i - 1))) by lia. simpl.
      apply lookup_replicate_2. lia.
  - destruct f as [p os sc ls]. enter_handler Hf. rewrite Hc. simpl.
    unfold c_size, INT32_MAX. rewrite decide_True by lia. simpl.
    destruct (Z.gtb_spec (count + 1) 0); [lia|]. reflexivity.
Qed.

Lemma heap_get_add_old (h : heap_t) (a arr : list Z) (ref : Z) :
  heap_get h ref = Ok arr -> heap_get (h ++ [a]) ref = Ok arr.
Proof.
  unfold heap_get. intros [H0 H]%rd_Ok. apply rd_Ok. split; [exact H0|].
  rewrite lookup_app_l by (eapply lookup_lt_Some, H). exact H.
Qed.

Lemma heap_get_set_same (h h' : heap_t) (ref : Z) (arr : list Z) :
  heap_set h ref arr = Ok h' -> heap_get h' ref = Ok arr.
Proof. apply rd_wr_same. Qed.

Lemma heap_get_set_other (h h' : heap_t) (ref r : Z) (arr : list Z) :
  heap_set h ref arr = Ok h' -> r <> ref -> heap_get h' r = heap_get h r.
Proof.
  unfold heap_set, heap_get. intros [Hb ->]%wr_Ok Hne. unfold rd.
  case_decide; [|reflexivity].
  rewrite list_lookup_insert_ne by lia. reflexivity.
Qed.

(** [newarray] leaves an array in the sense of [is_array]. *)
Lemma newarray_is_array (h : heap_t) (count : Z) :
  0 <= count < INT32_MAX ->
  is_array (h ++ [fresh_array count]) (Z.of_nat (length h)) count.
Proof.
  intros Hc. exists (fresh_array count). split_and!.
  - apply rd_Ok. split; [lia|]. rewrite Nat2Z.id, lookup_app_r by lia.
    rewrite Nat.sub_diag. reflexivity.
  - unfold fresh_array. simpl. rewrite length_replicate. lia.
  - reflexivity.
  - unfold is_int32, INT32_MIN, INT32_MAX in *. lia.
Qed.

Lemma is_array_heap_add (h : heap_t) (a : list Z) (ref count : Z) :
  is_array h ref count -> is_array (h ++ [a]) ref count.
Proof.
  intros (arr & Hget & Hlen & H0 & Hint). exists arr.
  split_and!; auto using heap_get_add_old.
Qed.

(** C6: for a reference [ref] to an array of [count] elements as [newarray]
    builds it, every index [0 <= i < count] and every value [v]: [iastore]
    on [ref, i, v] succeeds and pops its three operands, and on the heap it
    leaves any later [iaload] on [ref, i] replaces its two operands by
    exactly [v].  Both address slot [i + 1] of the backing array. *)
Theorem iastore_iaload_roundtrip (exec : callee) (cls : class_file_t)
    (m : method_t) (f : frame) (w : world) (ref count i v : Z) :
  is_array (heap w) ref count ->
  0 <= i < count ->
  fetch m f = Ok (Some i_iastore) ->
  rd (operand_stack f) (stack_count f - 3) = Ok ref ->
  rd (operand_stack f) (stack_count f - 2) = Ok i ->
  rd (operand_stack f) (stack_count f - 1) = Ok v ->
  exists h',
    step exec cls m f w =
      Ok (Continue
            (Frame (pc_plus (pc f) 1) (operand_stack f) (stack_count f - 3)
               (locals f))
            (World h' (stdout w))) /\
    is_array h' ref count /\
    (arr ← heap_get h' ref; rd arr (i + 1)) = Ok v /\
    forall (exec' : callee) (cls' : class_file_t) (m' : method_t)
           (f' : frame) (out' : list Z),
      fetch m' f' = Ok (Some i_iaload) ->
      rd (operand_stack f') (stack_count f' - 2) = Ok ref ->
      rd (operand_stack f') (stack_count f' - 1) = Ok i ->
      step exec' cls' m' f' (World h' out') =
        Ok (Continue
              (Frame (pc_plus (pc f') 1)
                 (<[Z.to_nat (stack_count f' - 2) := v]> (operand_stack f'))
                 (stack_count f' - 1) (locals f'))
              (World h' out')).
Proof.
  intros (arr & Hget & Hlen & H0 & Hint) Hi Hf Hr Hidx Hv.
  assert (H32 : to_int32 (i + 1) = i + 1)
    by (apply to_int32_id; unfold is_int32, INT32_MIN, INT32_MAX in *; lia).
  set (arr' := <[Z.to_nat (i + 1) := v]> arr).
  assert (Hwr : wr arr (i + 1) v = Ok arr') by (apply wr_in_bounds; lia).
  set (h' := <[Z.to_nat ref := arr']> (heap w)).
  assert (Hset : heap_set (heap w) ref arr' = Ok h')
    by (eapply wr_after_rd, Hget).
  assert (Hget' : heap_get h' ref = Ok arr') by (eapply heap_get_set_same, Hset).
  assert (Hrd' : rd arr' (i + 1) = Ok v) by (eapply rd_wr_same, Hwr).
  exists h'. split_and!.
  - destruct f as [p os sc ls]. enter_handler Hf.
    rewrite Hv; simpl. rewrite Hidx; simpl. rewrite Hr; simpl.
    rewrite Hget; simpl. rewrite H32, Hwr; simpl. rewrite Hset. reflexivity.
  - exists arr'. split_and!; auto.
    + unfold arr'. rewrite length_insert. exact Hlen.
    + apply rd_Ok in H0 as [_ H0]. apply rd_Ok. split; [lia|].
      unfold arr'. rewrite list_lookup_insert_ne by lia. exact H0.
  - rewrite Hget'. exact Hrd'.
  - intros exec' cls' m' f' out' Hf' Hr' Hi'. destruct f' as [p os sc ls].
    enter_handler Hf'. rewrite Hi'; simpl. rewrite Hr'; simpl.
    rewrite Hget'; simpl. rewrite H32, Hrd'; simpl.
    rewrite (wr_after_rd _ _ _ _ Hr'). reflexivity.
Qed.

(** C7: [newarray] on a popped count [c] leaves a reference on top of the
    stack whose array records [c] in slot 0; on every later heap in which
    slot 0 of that array still holds what [newarray] wrote, [arraylength] on
    the reference replaces it by exactly [c]. *)
Theorem newarray_arraylength (exec : callee) (cls : class_file_t)
    (m : method_t) (f : frame) (w : world) (c : Z) :
  fetch m f = Ok (Some i_newarray) ->
  rd (operand_stack f) (stack_count f - 1) = Ok c ->
  0 <= c < INT32_MAX ->
  exists (f1 : frame) (w1 : world) (ref : Z),
    step exec cls m f w = Ok (Continue f1 w1) /\
    rd (operand_stack f1) (stack_count f1 - 1) = Ok ref /\
    slot0 (heap w1) ref = Ok c /\
    forall (exec' : callee) (cls' : class_file_t) (m' : method_t)
           (f' : frame) (w' : world),
      slot0 (heap w') ref = slot0 (heap w1) ref ->
      fetch m' f' = Ok (Some i_arraylength) ->
      rd (operand_stack f') (stack_count f' - 1) = Ok ref ->
      step exec' cls' m' f' w' =
        Ok (Continue
              (Frame (pc_plus (pc f') 1)
                 (<[Z.to_nat (stack_count f' - 1) := c]> (operand_stack f'))
                 (stack_count f') (locals f'))
              w').
Proof.
  intros Hf Hc Hrange.
  pose proof (newarray_allocates exec cls m f w c Hf Hc Hrange) as Hstep.
  eexists _, _, _. split; [exact Hstep|]. simpl.
  assert (Hslot : slot0 (heap w ++ [fresh_array c])
                    (Z.of_nat (length (heap w))) = Ok c).
  { unfold slot0. rewrite (proj2 (heap_get_fresh (heap w) (fresh_array c))).
    reflexivity. }
  split_and!.
  - eapply rd_wr_same, wr_after_rd, Hc.
  - exact Hslot.
  - intros exec' cls' m' f' w' Hkeep Hf' Hr'. rewrite Hslot in Hkeep.
    unfold slot0 in Hkeep. destruct f' as [p os sc ls]. enter_handler Hf'.
    rewrite Hr'; simpl.
    destruct (heap_get (heap w') (Z.of_nat (length (heap w)))) as [arr|];
      simpl in Hkeep |- *; [|discriminate].
    rewrite Hkeep; simpl. rewrite (wr_after_rd _ _ _ _ Hr'). reflexivity.
Qed.

(** ** Branches *)

Lemma wrap_range (bits z : Z) :
  0 < bits -> - 2 ^ (bits - 1) <= wrap bits z < 2 ^ (bits - 1).
Proof.
  intros Hb. unfold wrap.
  assert (H2 : 2 ^ bits = 2 * 2 ^ (bits - 1)).
  { rewrite <- Z.pow_succ_r by lia. f_equal. lia. }
  pose proof (Z.mod_pos_bound (z + 2 ^ (bits - 1)) (2 ^ bits)) as Hm.
  assert (0 < 2 ^ (bits - 1)) by (apply Z.pow_pos_nonneg; lia). lia.
Qed.

Lemma wrap_congruent (bits z : Z) :
  0 < bits -> wrap bits z mod 2 ^ bits = z mod 2 ^ bits.
Proof.
  intros Hb. unfold wrap.
  assert (0 < 2 ^ bits) by (apply Z.pow_pos_nonneg; lia).
  rewrite Zminus_mod, Zmod_mod, <- Zminus_mod. f_equal. lia.
Qed.

Lemma leb_bool_decide (a b : Z) : (a <=? b) = bool_decide (a <= b).
Proof. destruct (Z.leb_spec a b); [rewrite bool_decide_true|rewrite bool_decide_false]; auto; lia. Qed.

Lemma ltb_bool_decide (a b : Z) : (a <? b) = bool_decide (a < b).
Proof. destruct (Z.ltb_spec a b); [rewrite bool_decide_true|rewrite bool_decide_false]; auto; lia. Qed.

Lemma geb_bool_decide (a b : Z) : (a >=? b) = bool_decide (b <= a).
Proof. rewrite Z.geb_leb. apply leb_bool_decide. Qed.

Lemma gtb_bool_decide (a b : Z) : (a >? b) = bool_decide (b < a).
Proof. rewrite Z.gtb_ltb. apply ltb_bool_decide. Qed.

Lemma eqb_bool_decide (a b : Z) : (a =? b) = bool_decide (a = b).
Proof. destruct (Z.eqb_spec a b); [rewrite bool_decide_true|rewrite bool_decide_false]; auto. Qed.

Lemma neqb_bool_decide (a b : Z) : negb (a =? b) = bool_decide (a <> b).
Proof. destruct (Z.eqb_spec a b); [rewrite bool_decide_false|rewrite bool_decide_true]; auto. Qed.

Lemma branch_value (m : method_t) (f : frame) (b1 b2 : byte) (taken : bool) :
  pc_valid m f ->
  rd (code m) (pc f + 1) = Ok b1 ->
  rd (code m) (pc f + 2) = Ok b2 ->
  branch m (pc f) taken =
    Ok (if taken then to_size_t (pc f + to_int16 (be16 b1 b2)) else pc f + 3).
Proof.
  intros [Hpc Hlen] H1 H2. unfold branch.
  rewrite !pc_plus_small by lia. destruct taken; [|reflexivity].
  rewrite H1; simpl. rewrite H2; simpl. reflexivity.
Qed.

(** C2: each of the twelve conditional branches reads the big-endian signed
    16-bit displacement [d] at [code[pc+1..pc+2]]; if its condition holds the
    new [pc] is the opcode's address plus [d] (in [size_t], which is exactly
    [pc + d] whenever that target is not negative), otherwise it is the
    opcode's address plus 3; the one operand of the unary forms, or the two
    of the [if_icmp] forms, leave the stack in both arms. *)
Theorem conditional_branch_spec (exec : callee) (cls : class_file_t)
    (m : method_t) (f : frame) (w : world) (b1 b2 : byte) :
  pc_valid m f ->
  rd (code m) (pc f + 1) = Ok b1 ->
  rd (code m) (pc f + 2) = Ok b2 ->
  let d := to_int16 (be16 b1 b2) in
  let next (taken : bool) :=
    if taken then to_size_t (pc f + d) else pc f + 3 in
  (- 32768 <= d <= 32767 /\ d mod 65536 = u1 b1 * 256 + u1 b2) /\
  (0 <= pc f + d -> to_size_t (pc f + d) = pc f + d) /\
  (forall i c v,
      unary_condition i = Some c ->
      fetch m f = Ok (Some i) ->
      rd (operand_stack f) (stack_count f - 1) = Ok v ->
      step exec cls m f w =
        Ok (Continue
              (Frame (next (c v)) (operand_stack f) (stack_count f - 1)
                 (locals f)) w)) /\
  (forall i c a b,
      binary_condition i = Some c ->
      fetch m f = Ok (Some i) ->
      rd (operand_stack f) (stack_count f - 2) = Ok a ->
      rd (operand_stack f) (stack_count f - 1) = Ok b ->
      step exec cls m f w =
        Ok (Continue
              (Frame (next (c a b)) (operand_stack f) (stack_count f - 2)
                 (locals f)) w)).
Proof.
  intros Hpc H1 H2 d next.
  assert (Hd : - 32768 <= d <= 32767).
  { pose proof (wrap_range 16 (be16 b1 b2)) as H. unfold d, to_int16.
    change (2 ^ (16 - 1)) with 32768 in H. lia. }
  split; [split|split; [|split]].
  - exact Hd.
  - unfold d, to_int16. change 65536 with (2 ^ 16).
    rewrite wrap_congruent by lia. rewrite be16_value.
    pose proof (u1_range b1). pose proof (u1_range b2).
    apply Z.mod_small. lia.
  - intros Hnn. unfold to_size_t. apply Z.mod_small.
    destruct Hpc as [Hpc Hlen]. lia.
  - intros i c v Hc Hf Hv.
    pose proof (fun t => branch_value m f b1 b2 t Hpc H1 H2) as Hbr.
    destruct f as [p os sc ls]. simpl in Hbr.
    destruct i; simpl in Hc; try discriminate Hc; inversion Hc; subst c;
      enter_handler Hf; rewrite Hv; simpl; rewrite Hbr; simpl; unfold next;
      rewrite ?neqb_bool_decide, ?eqb_bool_decide, ?geb_bool_decide,
        ?gtb_bool_decide, ?ltb_bool_decide, ?leb_bool_decide;
      reflexivity.
  - intros i c a b Hc Hf Ha Hb.
    pose proof (fun t => branch_value m f b1 b2 t Hpc H1 H2) as Hbr.
    destruct f as [p os sc ls]. simpl in Hbr.
    destruct i; simpl in Hc; try discriminate Hc; inversion Hc; subst c;
      enter_handler Hf; rewrite Ha; simpl; rewrite Hb; simpl; rewrite Hbr;
      simpl; unfold next;
      rewrite ?neqb_bool_decide, ?eqb_bool_decide, ?geb_bool_decide,
        ?gtb_bool_decide, ?ltb_bool_decide, ?leb_bool_decide;
      reflexivity.
Qed.

(** ** Static calls *)

Lemma pop_arguments_ok (n : nat) (locals_queue os : list Z) (sc : Z) :
  Z.of_nat n <= sc <= Z.of_nat (length os) ->
  (n <= length locals_queue)%nat ->
  pop_arguments n locals_queue os sc =
    Ok (take n (drop (Z.to_nat sc - n) os) ++ drop n locals_queue,
        sc - Z.of_nat n).
Proof.
  revert locals_queue sc.
  induction n as [|i IH]; intros lq sc Hsc Hlq.
  - simpl. rewrite drop_0. do 2 f_equal. lia.
  - cbn [pop_arguments].
    destruct (lookup_lt_is_Some_2 os (Z.to_nat (sc - 1))) as [v Hv]; [lia|].
    assert (Hrd : rd os (sc - 1) = Ok v) by (apply rd_Ok; split; [lia|exact Hv]).
    rewrite Hrd; simpl. rewrite wr_in_bounds by lia; simpl.
    rewrite IH by (rewrite ?length_insert; lia).
    rewrite Nat2Z.id.
    replace (Z.to_nat (sc - 1) - i)%nat with (Z.to_nat sc - S i)%nat by lia.
    rewrite insert_take_drop by lia.
    rewrite drop_app_length' by (rewrite length_take; lia).
    rewrite (take_S_r _ i v).
    + rewrite <- app_assoc. simpl. do 2 f_equal. lia.
    + rewrite lookup_drop. rewrite <- Hv. f_equal. lia.
Qed.

(** C1: [invokestatic] of a method [M] with [n] parameters pops exactly the
    [n] topmost values of the caller's stack into the first [n] slots of a
    zeroed frame of [max_locals M] words, in push order (slot 0 receives the
    deepest of them, popped last; slot [n - 1] the top of the stack), runs
    [M] on that frame, and leaves the caller with [n] values fewer when [M]
    returns no value, or with [M]'s value in place of the [n] arguments when
    it returns one, and with [pc] three bytes further. *)
Theorem invokestatic_spec (exec : callee) (cls : class_file_t) (m : method_t)
    (f : frame) (w : world) (b1 b2 : byte) (M : method_t) :
  pc_valid m f ->
  fetch m f = Ok (Some i_invokestatic) ->
  rd (code m) (pc f + 1) = Ok b1 ->
  rd (code m) (pc f + 2) = Ok b2 ->
  find_method_from_index (invokestatic_index b1 b2) cls = Some M ->
  let n := get_number_of_parameters M in
  Z.of_nat n <= stack_count f <= Z.of_nat (length (operand_stack f)) ->
  Z.of_nat n <= max_locals M ->
  let base := stack_count f - Z.of_nat n in
  let args := take n (drop (Z.to_nat base) (operand_stack f)) in
  let callee_locals := args ++ replicate (Z.to_nat (max_locals M) - n) 0 in
  (length args = n /\
   Z.of_nat (length callee_locals) = max_locals M /\
   forall i : nat, (i < n)%nat ->
     callee_locals !! i = operand_stack f !! (Z.to_nat base + i)%nat) /\
  match exec M callee_locals w with
  | Ok (res, w') =>
      if has_value res then
        base < Z.of_nat (length (operand_stack f)) ->
        step exec cls m f w =
          Ok (Continue
                (Frame (pc f + 3)
                   (<[Z.to_nat base := value res]> (operand_stack f))
                   (base + 1) (locals f)) w')
      else
        step exec cls m f w =
          Ok (Continue
                (Frame (pc f + 3) (operand_stack f) base (locals f)) w')
  | Err e => step exec cls m f w = Err e
  end.
Proof.
  intros [Hpc Hlen] Hf H1 H2 HM n Hsc Hloc base args callee_locals.
  assert (Hn : get_number_of_parameters M = n) by reflexivity. clearbody n.
  assert (Hargs : length args = n).
  { unfold args. rewrite length_take, length_drop. unfold base. lia. }
  split; [split_and!|].
  - exact Hargs.
  - unfold callee_locals. rewrite length_app, Hargs, length_replicate. lia.
  - intros i Hi. unfold callee_locals. rewrite lookup_app_l by lia.
    unfold args. rewrite lookup_take_lt by lia. apply lookup_drop.
  - destruct f as [p os sc ls]. simpl in *.
    assert (Hstep : forall k : result step_result,
      (r ← exec M callee_locals w;
       let '(res, w') := r in
       if has_value res then
         os' ← wr os base (value res);
         continue (p + 3) os' (base + 1) ls w'
       else continue (p + 3) os base ls w') = k ->
      step exec cls m (Frame p os sc ls) w = k).
    { intros k <-. enter_handler Hf. rewrite !pc_plus_small by lia.
      rewrite H1; simpl. rewrite H2; simpl. rewrite HM; simpl.
      rewrite Hn. rewrite pop_arguments_ok
        by (unfold calloc; rewrite ?length_replicate; lia).
      simpl. unfold calloc. rewrite drop_replicate.
      replace (Z.to_nat sc - n)%nat with (Z.to_nat base) by (unfold base; lia).
      reflexivity. }
    destruct (exec M callee_locals w) as [[res w']|e] eqn:Eexec.
    + destruct (has_value res) eqn:Ehv.
      * intros Hroom. apply Hstep. simpl. rewrite Ehv.
        rewrite wr_in_bounds by (unfold base in *; lia). reflexivity.
      * apply Hstep. simpl. rewrite Ehv. reflexivity.
    + apply Hstep. reflexivity.
Qed.

(** ** The operand-stack cursor *)

Lemma bind_Ok {A B : Type} (e : result A) (k : A -> result B) (r : B) :
  e ≫= k = Ok r -> exists a, e = Ok a /\ k a = Ok r.
Proof. destruct e as [a|]; simpl; [eauto|discriminate]. Qed.

Lemma pop_arguments_count (n : nat) (lq os lq' : list Z) (sc sc' : Z) :
  pop_arguments n lq os sc = Ok (lq', sc') ->
  sc' = sc - Z.of_nat n /\ (0 <= sc -> 0 <= sc').
Proof.
  revert lq sc. induction n as [|i IH]; intros lq sc H.
  - inversion H. lia.
  - cbn [pop_arguments] in H.
    apply bind_Ok in H as (v & Hv & H). apply bind_Ok in H as (lq1 & _ & H).
    apply rd_bounds in Hv. apply IH in H as [-> H]. lia.
Qed.

(** Splits a successful handler into the accesses it made. *)
Ltac handler_inv H :=
  repeat first
    [ apply bind_Ok in H as (? & ? & H)
    | progress (simpl in H) ];
  repeat match goal with
  | H' : rd _ _ = Ok _ |- _ => apply rd_bounds in H'
  | H' : wr _ _ _ = Ok _ |- _ => apply wr_Ok in H' as [? ->]
  end.

Lemma step_stack_in_bounds (exec : callee) (cls : class_file_t)
    (m : method_t) (f f' : frame) (w w' : world) :
  step exec cls m f w = Ok (Continue f' w') ->
  stack_in_bounds m f -> stack_in_bounds m f'.
Proof.
  unfold stack_in_bounds. intros H [Hlen Hsc].
  destruct f as [p os sc ls]. unfold step, step_with in H. simpl in Hlen, Hsc.
  apply bind_Ok in H as (opc & _ & H).
  destruct (decode opc) as [i|]; [destruct i|];
    try (handler_inv H; inversion H; subst; simpl;
         rewrite ?length_insert; lia).
  (* invokestatic is left *)
  apply bind_Ok in H as (b1 & _ & H). apply bind_Ok in H as (b2 & _ & H).
  apply bind_Ok in H as (meth & _ & H).
  apply bind_Ok in H as ([lq sc1] & Hpop & H).
  apply bind_Ok in H as ([res w1] & _ & H).
  apply pop_arguments_count in Hpop as [-> Hsc1].
  destruct (has_value res).
  - handler_inv H. inversion H; subst; simpl.
    rewrite length_insert. lia.
  - inversion H; subst; simpl. lia.
Qed.

(** The turn as the compiled code runs it agrees with the checked turn
    wherever the checked turn has a result. *)
Lemma peek_rd (junk : Z) (os : list Z) (i v : Z) :
  rd os i = Ok v -> peek junk os i = Ok v.
Proof. unfold peek. intros ->. reflexivity. Qed.

Lemma poke_wr (os : list Z) (i v : Z) (os' : list Z) :
  wr os i v = Ok os' -> poke os i v = Ok os'.
Proof. unfold poke. intros ->. reflexivity. Qed.

Lemma pop_arguments_raw_extends (junk : Z) (n : nat) (lq os : list Z) (sc : Z)
    (r : list Z * Z) :
  pop_arguments n lq os sc = Ok r -> pop_arguments_raw junk n lq os sc = Ok r.
Proof.
  revert lq sc. induction n as [|i IH]; intros lq sc H; [exact H|].
  cbn [pop_arguments] in H. cbn [pop_arguments_raw].
  apply bind_Ok in H as (v & Hv & H). apply bind_Ok in H as (lq1 & Hw & H).
  rewrite (peek_rd junk _ _ _ Hv). simpl. rewrite Hw. simpl.
  apply IH, H.
Qed.

(** Follows a successful checked handler access by access. *)
Ltac follow_handler junk H :=
  repeat first
    [ match type of H with
      | mbind _ (rd _ _) = Ok _ =>
          let E := fresh "E" in
          apply bind_Ok in H as (? & E & H);
          first [rewrite (peek_rd junk _ _ _ E) | rewrite E]; simpl
      | mbind _ (wr _ _ _) = Ok _ =>
          let E := fresh "E" in
          apply bind_Ok in H as (? & E & H);
          first [rewrite (poke_wr _ _ _ _ E) | rewrite E]; simpl
      | mbind _ (pop_arguments _ _ _ _) = Ok _ =>
          let E := fresh "E" in
          apply bind_Ok in H as ([? ?] & E & H);
          rewrite (pop_arguments_raw_extends junk _ _ _ _ _ E); simpl
      | mbind _ _ = Ok _ =>
          let E := fresh "E" in
          apply bind_Ok in H as (? & E & H); rewrite E; simpl
      end
    | progress (simpl in H) ].

Lemma step_raw_extends (junk : Z) (exec : callee) (cls : class_file_t)
    (m : method_t) (f : frame) (w : world) (r : step_result) :
  step exec cls m f w = Ok r -> step_raw junk exec cls m f w = Ok r.
Proof.
  intros H. destruct f as [p os sc ls].
  unfold step, step_with in H. unfold step_raw, step_with.
  apply bind_Ok in H as (opc & Hopc & H). rewrite Hopc. simpl.
  destruct (decode opc) as [i|]; [destruct i|]; try exact H;
    follow_handler junk H; try exact H.
  (* invokestatic is left, after the call *)
  match type of H with
  | context [let '(_, _) := ?c in _] => destruct c as [res w1]
  end.
  destruct (has_value res); [|exact H].
  follow_handler junk H. exact H.
Qed.

(** A turn of the compiled code that takes the cursor out of the block is
    one that the checked turn does not have: some access of it fell outside
    the operand stack. *)
Lemma raw_turn_out_of_bounds (junk : Z) (exec : callee) (cls : class_file_t)
    (m : method_t) (f f' : frame) (w w' : world) :
  stack_in_bounds m f ->
  step_raw junk exec cls m f w = Ok (Continue f' w') ->
  ~ stack_in_bounds m f' ->
  forall r, step exec cls m f w <> Ok r.
Proof.
  intros Hin Hraw Hout r Hstep.
  pose proof (step_raw_extends junk _ _ _ _ _ _ Hstep) as Hsame.
  rewrite Hraw in Hsame. inversion Hsame; subst r.
  apply Hout. eapply step_stack_in_bounds; eauto.
Qed.


(** ** Bytes without a handler *)

(** C8 (as amended): a byte that is the opcode of no handler selects no case
    of the [switch]: the turn changes nothing ([pc], stack, locals, heap and
    output are as before), so the loop meets the same byte again; no fatal
    condition is raised and the activation does not return, whatever the
    bound put on the loop. *)
Theorem unhandled_opcode_spins (exec : callee) (cls : class_file_t)
    (m : method_t) (f : frame) (w : world) :
  fetch m f = Ok None ->
  step exec cls m f w = Ok (Continue f w) /\
  (pc f < code_length m ->
   forall fuel : nat, run fuel cls m f w = Err OutOfFuel).
Proof.
  intros (opc & Hopc & Hdec)%fetch_unhandled.
  assert (Hstep : forall e, step e cls m f w = Ok (Continue f w)).
  { intros e. destruct f as [p os sc ls]. unfold step, step_with. simpl in Hopc.
    rewrite Hopc; simpl. rewrite Hdec. reflexivity. }
  split; [apply Hstep|].
  intros Hpc fuel. induction fuel as [|n IH]; [reflexivity|].
  cbn [run]. rewrite decide_True by exact Hpc.
  rewrite Hstep. simpl. exact IH.
Qed.

(** ** Loads of locals *)

(** C9: on the same frame and world, the [aload] handler gives the same
    result as the [iload] handler for the same index byte, and [aload_k] the
    same as [iload_k] for [k = 0..3], failures included: each is the load of
    the specification (push [locals[k]], [pc] advanced by 2 for the operand
    forms and by 1 for the short forms; locals, heap and output
    untouched). *)
Theorem aload_same_as_iload (exec : callee) (cls : class_file_t)
    (mi ma : method_t) (f : frame) (w : world) :
  (fetch mi f = Ok (Some i_iload) ->
   fetch ma f = Ok (Some i_aload) ->
   rd (code ma) (pc_plus (pc f) 1) = rd (code mi) (pc_plus (pc f) 1) ->
   step exec cls ma f w = step exec cls mi f w /\
   step exec cls mi f w =
     (idx ← rd (code mi) (pc_plus (pc f) 1); load_local (u1 idx) 2 f w)) /\
  (forall (k : Z) (bi ba : byte),
      0 <= k <= 3 ->
      rd (code mi) (pc f) = Ok bi ->
      rd (code ma) (pc f) = Ok ba ->
      u1 bi = opcode i_iload_0 + k ->
      u1 ba = opcode i_aload_0 + k ->
      step exec cls ma f w = step exec cls mi f w /\
      step exec cls mi f w = load_local k 1 f w).
Proof.
  split.
  - intros Hi Ha Hidx.
    assert (Hmi : step exec cls mi f w =
              (idx ← rd (code mi) (pc_plus (pc f) 1);
               load_local (u1 idx) 2 f w)).
    { destruct f as [p os sc ls]. enter_handler Hi. reflexivity. }
    assert (Hma : step exec cls ma f w =
              (idx ← rd (code ma) (pc_plus (pc f) 1);
               load_local (u1 idx) 2 f w)).
    { destruct f as [p os sc ls]. enter_handler Ha. reflexivity. }
    split; [rewrite Hma, Hmi, Hidx; reflexivity | exact Hmi].
  - intros k bi ba Hk Hbi Hba Hui Hua.
    assert (Hmi : step exec cls mi f w = load_local k 1 f w).
    { destruct f as [p os sc ls]. unfold step, step_with. simpl in Hbi.
      rewrite Hbi; simpl. unfold load_local; simpl.
      replace k with (u1 bi - opcode i_iload_0) by lia.
      assert (Hcase : k = 0 \/ k = 1 \/ k = 2 \/ k = 3) by lia.
      destruct Hcase as [-> | [-> | [-> | ->]]];
        [ rewrite (decode_complete bi i_iload_0) by exact Hui
        | rewrite (decode_complete bi i_iload_1) by exact Hui
        | rewrite (decode_complete bi i_iload_2) by exact Hui
        | rewrite (decode_complete bi i_iload_3) by exact Hui ];
        reflexivity. }
    assert (Hma : step exec cls ma f w = load_local k 1 f w).
    { destruct f as [p os sc ls]. unfold step, step_with. simpl in Hba.
      rewrite Hba; simpl. unfold load_local; simpl.
      replace k with (u1 ba - opcode i_aload_0) by lia.
      assert (Hcase : k = 0 \/ k = 1 \/ k = 2 \/ k = 3) by lia.
      destruct Hcase as [-> | [-> | [-> | ->]]];
        [ rewrite (decode_complete ba i_aload_0) by exact Hua
        | rewrite (decode_complete ba i_aload_1) by exact Hua
        | rewrite (decode_complete ba i_aload_2) by exact Hua
        | rewrite (decode_complete ba i_aload_3) by exact Hua ];
        reflexivity. }
    split; congruence.
Qed.

(** ** Which turns keep slot 0 *)

Lemma slot0_heap_add (h : heap_t) (a : list Z) (r c : Z) :
  slot0 h r = Ok c -> slot0 (h ++ [a]) r = Ok c.
Proof.
  unfold slot0. intros (arr & Hget & H0)%bind_Ok.
  rewrite (heap_get_add_old _ a _ _ Hget). exact H0.
Qed.

Lemma slot0_store (h h' : heap_t) (ref r c j v : Z) (arr : list Z) :
  heap_get h ref = Ok arr ->
  0 <= j < Z.of_nat (length arr) ->
  heap_set h ref (<[Z.to_nat j := v]> arr) = Ok h' ->
  (ref = r -> j <> 0) ->
  slot0 h r = Ok c -> slot0 h' r = Ok c.
Proof.
  intros Hget Hj Hset Hne. unfold slot0.
  destruct (decide (r = ref)) as [->|Hr].
  - rewrite Hget, (heap_get_set_same _ _ _ _ Hset). simpl.
    intros [_ H0]%rd_Ok. apply rd_Ok. split; [lia|].
    specialize (Hne eq_refl).
    rewrite list_lookup_insert_ne by (simpl; lia). exact H0.
  - rewrite (heap_get_set_other _ _ _ _ _ Hset Hr). auto.
Qed.

(** Every turn keeps the count recorded under a reference, unless it is an
    [iastore] aimed at slot 0 of that very array or a call whose callee
    changes it. *)
Lemma step_keeps_slot0 (exec : callee) (cls : class_file_t) (m : method_t)
    (f f' : frame) (w w' : world) (r c : Z) :
  step exec cls m f w = Ok (Continue f' w') ->
  slot0 (heap w) r = Ok c ->
  callee_keeps_slot0 exec r c ->
  ~ stores_slot0 m f r ->
  slot0 (heap w') r = Ok c.
Proof.
  intros H Hslot Hexec Hno. destruct f as [p os sc ls].
  unfold stores_slot0, fetch in Hno. unfold step, step_with in H. simpl in Hno.
  apply bind_Ok in H as (opc & Hopc & H). rewrite Hopc in Hno. simpl in Hno.
  destruct (decode opc) as [i|]; [destruct i|];
    try (handler_inv H; inversion H; subst; simpl; first
           [ exact Hslot | apply slot0_heap_add, Hslot ]).
  - (* iastore *)
    apply bind_Ok in H as (v & Hv & H). apply bind_Ok in H as (index & Hi & H).
    apply bind_Ok in H as (ref & Hr & H). apply bind_Ok in H as (arr & Hget & H).
    apply bind_Ok in H as (arr' & Hwr & H). apply bind_Ok in H as (h' & Hset & H).
    inversion H; subst; simpl. apply wr_Ok in Hwr as [Hj ->].
    eapply slot0_store; eauto.
    intros -> Hz. apply Hno. exists index. auto.
  - (* invokestatic *)
    apply bind_Ok in H as (b1 & _ & H). apply bind_Ok in H as (b2 & _ & H).
    apply bind_Ok in H as (meth & _ & H).
    apply bind_Ok in H as ([lq sc1] & _ & H).
    apply bind_Ok in H as ([res w1] & Hcall & H).
    pose proof (Hexec _ _ _ _ _ Hcall Hslot) as Hkept.
    destruct (has_value res); handler_inv H; inversion H; subst; exact Hkept.
Qed.

(** ** The bound on the loop *)

Lemma settled_bind {A B : Type} (e : result A) (k : A -> result B) :
  settled (e ≫= k) -> settled e.
Proof. unfold settled. intros H ->. apply H. reflexivity. Qed.

(** A turn asks of its callee only the calls it makes: two callees that
    agree wherever the first one settles give the same settled turns. *)
Lemma step_settled (exec exec' : callee) (cls : class_file_t) (m : method_t)
    (f : frame) (w : world) :
  (forall meth l w0,
      settled (exec meth l w0) -> exec' meth l w0 = exec meth l w0) ->
  settled (step exec cls m f w) ->
  step exec' cls m f w = step exec cls m f w.
Proof.
  intros Hagree. destruct f as [p os sc ls]. unfold step, step_with.
  destruct (rd (code m) p) as [opc|]; simpl; [|reflexivity].
  destruct (decode opc) as [i|]; [destruct i|]; try reflexivity.
  destruct (rd (code m) (pc_plus p 1)); simpl; [|reflexivity].
  destruct (rd (code m) (pc_plus p 2)); simpl; [|reflexivity].
  destruct (deref _) as [meth|]; simpl; [|reflexivity].
  destruct (pop_arguments _ _ _ _) as [[lq sc1]|]; simpl; [|reflexivity].
  intros Hs. apply settled_bind in Hs. rewrite (Hagree _ _ _ Hs). reflexivity.
Qed.

Lemma run_S (n : nat) (cls : class_file_t) (m : method_t) (f : frame)
    (w : world) :
  run (S n) cls m f w =
    if decide (pc f < code_length m) then
      r ← step (fun meth l w' => run n cls meth (init_frame meth l) w')
            cls m f w;
      match r with
      | Continue f' w' => run n cls m f' w'
      | Returned v w' => Ok (v, w')
      end
    else Ok (void_result, w).
Proof. reflexivity. Qed.

(** Once [run] settles, more fuel gives the same result. *)
Lemma run_settled (n : nat) (cls : class_file_t) (m : method_t) (f : frame)
    (w : world) :
  settled (run n cls m f w) -> run (S n) cls m f w = run n cls m f w.
Proof.
  revert m f w. induction n as [|n IH]; intros m f w Hs.
  - exfalso. apply Hs. reflexivity.
  - rewrite (run_S n) in Hs. rewrite (run_S (S n)), (run_S n).
    case_decide; [|reflexivity].
    assert (Hstep : settled
      (step (fun meth l w' => run n cls meth (init_frame meth l) w')
         cls m f w)) by (eapply settled_bind, Hs).
    rewrite (step_settled _
               (fun meth l w' => run (S n) cls meth (init_frame meth l) w')
               _ _ _ _ (fun meth l w0 H => IH meth (init_frame meth l) w0 H)
               Hstep).
    destruct (step _ cls m f w) as [[f' w'|v w']|e]; simpl in *;
      [apply IH, Hs | reflexivity | reflexivity].
Qed.

(** ** What a run does to the world *)

(** A turn changes the world in four ways only: a line printed, an array
    registered, a word stored inside a registered array, and what its callee
    does. *)
Lemma step_respects (R : world -> world -> Prop) (exec : callee)
    (cls : class_file_t) (m : method_t) (f : frame) (w : world)
    (r : step_result) :
  (forall w0, R w0 w0) ->
  (forall w0 v, R w0 (World (heap w0) (stdout w0 ++ [v]))) ->
  (forall w0 arr, R w0 (World (heap w0 ++ [arr]) (stdout w0))) ->
  (forall w0 ref arr j v h',
      heap_get (heap w0) ref = Ok arr ->
      0 <= j < Z.of_nat (length arr) ->
      heap_set (heap w0) ref (<[Z.to_nat j := v]> arr) = Ok h' ->
      R w0 (World h' (stdout w0))) ->
  callee_respects R exec ->
  step exec cls m f w = Ok r ->
  R w (world_of r).
Proof.
  intros Hrefl Hprint Hnew Hstore Hexec H. destruct f as [p os sc ls].
  unfold step, step_with in H. apply bind_Ok in H as (opc & _ & H).
  destruct (decode opc) as [i|]; [destruct i|];
    try (handler_inv H; inversion H; subst; simpl;
         first [ apply Hrefl | apply Hprint | apply Hnew ]).
  - (* iastore *)
    apply bind_Ok in H as (v & _ & H). apply bind_Ok in H as (index & _ & H).
    apply bind_Ok in H as (ref & _ & H). apply bind_Ok in H as (arr & Hget & H).
    apply bind_Ok in H as (arr' & Hwr & H). apply bind_Ok in H as (h' & Hset & H).
    inversion H; subst; simpl. apply wr_Ok in Hwr as [Hj ->].
    eapply Hstore; eauto.
  - (* invokestatic *)
    apply bind_Ok in H as (b1 & _ & H). apply bind_Ok in H as (b2 & _ & H).
    apply bind_Ok in H as (meth & _ & H).
    apply bind_Ok in H as ([lq sc1] & _ & H).
    apply bind_Ok in H as ([res w1] & Hcall & H).
    apply Hexec in Hcall.
    destruct (has_value res); handler_inv H; inversion H; subst; exact Hcall.
Qed.

Lemma run_respects (R : world -> world -> Prop) (fuel : nat)
    (cls : class_file_t) (m : method_t) (f : frame) (w : world)
    (res : optional_value_t) (w' : world) :
  (forall w0, R w0 w0) ->
  (forall w0 w1 w2, R w0 w1 -> R w1 w2 -> R w0 w2) ->
  (forall w0 v, R w0 (World (heap w0) (stdout w0 ++ [v]))) ->
  (forall w0 arr, R w0 (World (heap w0 ++ [arr]) (stdout w0))) ->
  (forall w0 ref arr j v h',
      heap_get (heap w0) ref = Ok arr ->
      0 <= j < Z.of_nat (length arr) ->
      heap_set (heap w0) ref (<[Z.to_nat j := v]> arr) = Ok h' ->
      R w0 (World h' (stdout w0))) ->
  run fuel cls m f w = Ok (res, w') ->
  R w w'.
Proof.
  intros Hrefl Htrans Hprint Hnew Hstore.
  revert m f w res w'. induction fuel as [|n IH]; intros m f w res w' H.
  - discriminate H.
  - rewrite run_S in H. case_decide.
    + apply bind_Ok in H as (r & Hstep & H).
      apply (step_respects R) in Hstep; auto.
      * destruct r as [f1 w1|v w1]; simpl in Hstep.
        -- eapply Htrans; [exact Hstep|]. eapply IH, H.
        -- inversion H; subst. exact Hstep.
      * intros meth l w0 res0 w1 Hcall. eapply IH, Hcall.
    + inversion H; subst. apply Hrefl.
Qed.

Lemma heap_extends_refl (h : heap_t) : heap_extends h h.
Proof. split; [lia|]. eauto. Qed.

Lemma heap_extends_trans (h1 h2 h3 : heap_t) :
  heap_extends h1 h2 -> heap_extends h2 h3 -> heap_extends h1 h3.
Proof.
  intros [Hl1 H1] [Hl2 H2]. split; [lia|].
  intros ref arr Hget. destruct (H1 _ _ Hget) as (arr1 & Hget1 & Hlen1).
  destruct (H2 _ _ Hget1) as (arr2 & Hget2 & Hlen2).
  exists arr2. split; [exact Hget2|congruence].
Qed.

Lemma heap_extends_add (h : heap_t) (arr : list Z) :
  heap_extends h (h ++ [arr]).
Proof.
  split; [rewrite length_app; simpl; lia|].
  intros ref a Hget. exists a. split; [|reflexivity].
  apply heap_get_add_old, Hget.
Qed.

Lemma heap_extends_store (h h' : heap_t) (ref j v : Z) (arr : list Z) :
  heap_get h ref = Ok arr ->
  heap_set h ref (<[Z.to_nat j := v]> arr) = Ok h' ->
  heap_extends h h'.
Proof.
  intros Hget Hset. split.
  - apply wr_length in Hset. lia.
  - intros r a Ha. destruct (decide (r = ref)) as [->|Hne].
    + rewrite (heap_get_set_same _ _ _ _ Hset). eexists. split; [reflexivity|].
      rewrite length_insert. congruence.
    + rewrite (heap_get_set_other _ _ _ _ _ Hset Hne). eauto.
Qed.

(** X1: the heap only grows.  When [execute] returns, every reference that
    named an array before the call still names an array of the same length,
    and no array was removed: nothing is freed and nothing is resized,
    whatever the method and its callees did. *)
Theorem execute_heap_extends (fuel : nat) (method : method_t)
    (locals0 : list Z) (cls : class_file_t) (w : world)
    (res : optional_value_t) (w' : world) :
  execute fuel method locals0 cls w = Ok (res, w') ->
  heap_extends (heap w) (heap w').
Proof.
  unfold execute. intros H.
  apply (run_respects (fun w0 w1 => heap_extends (heap w0) (heap w1))) in H;
    [exact H|..]; simpl.
  - intros. apply heap_extends_refl.
  - intros. eapply heap_extends_trans; eauto.
  - intros. apply heap_extends_refl.
  - intros. apply heap_extends_add.
  - intros. eapply heap_extends_store; eauto.
Qed.

(** X2: standard output is append-only.  When [execute] returns, the output
    is the output before the call followed by the lines the call printed:
    nothing already printed is changed or dropped. *)
Theorem execute_output_extends (fuel : nat) (method : method_t)
    (locals0 : list Z) (cls : class_file_t) (w : world)
    (res : optional_value_t) (w' : world) :
  execute fuel method locals0 cls w = Ok (res, w') ->
  output_extends (stdout w) (stdout w').
Proof.
  unfold execute. intros H.
  apply (run_respects (fun w0 w1 => output_extends (stdout w0) (stdout w1)))
    in H; [exact H|..]; simpl; unfold output_extends.
  - intros. exists []. rewrite app_nil_r. reflexivity.
  - intros w0 w1 w2 [p1 H1] [p2 H2]. exists (p1 ++ p2).
    rewrite H2, H1, app_assoc. reflexivity.
  - intros. eauto.
  - intros. exists []. rewrite app_nil_r. reflexivity.
  - intros. exists []. rewrite app_nil_r. reflexivity.
Qed.

(** ** Arithmetic handlers *)

Lemma to_int32_congruent (z : Z) : to_int32 z mod 2 ^ 32 = z mod 2 ^ 32.
Proof. apply wrap_congruent. lia. Qed.

(** X3: [iadd], [isub] and [imul] pop [b] then [a] and push the exact sum,
    difference or product reduced to 32-bit two's complement: the value
    pushed is a 32-bit integer congruent to the exact result modulo [2^32],
    and it is the exact result whenever that fits in 32 bits. *)
Theorem wrapping_arithmetic (exec : callee) (cls : class_file_t)
    (m : method_t) (f : frame) (w : world) (i : jvm_instruction_t)
    (op : Z -> Z -> Z) (a b : Z) :
  exact_result i = Some op ->
  fetch m f = Ok (Some i) ->
  rd (operand_stack f) (stack_count f - 2) = Ok a ->
  rd (operand_stack f) (stack_count f - 1) = Ok b ->
  exists r,
    step exec cls m f w =
      Ok (Continue
            (Frame (pc_plus (pc f) 1)
               (<[Z.to_nat (stack_count f - 2) := r]> (operand_stack f))
               (stack_count f - 1) (locals f)) w) /\
    is_int32 r /\
    r mod 2 ^ 32 = op a b mod 2 ^ 32 /\
    (is_int32 (op a b) -> r = op a b).
Proof.
  intros Hop Hf Ha Hb. exists (to_int32 (op a b)).
  split; [|split; [apply to_int32_range|split;
            [apply to_int32_congruent|apply to_int32_id]]].
  destruct f as [p os sc ls].
  destruct i; simpl in Hop; try discriminate Hop; inversion Hop; subst op;
    enter_handler Hf; rewrite ?Ha, ?Hb; simpl; rewrite ?Ha, ?Hb; simpl;
    rewrite (wr_after_rd _ _ _ _ Ha); rewrite ?(Z.add_comm b a); reflexivity.
Qed.

(** X4: [idiv] and [irem] pop the divisor [b] then the dividend [a].  A zero
    divisor fails the assertion.  [INT_MIN / -1] has no defined result.
    Otherwise [idiv] pushes the quotient [q] truncated toward zero and [irem]
    the remainder [r], where [a = b * q + r], [|r| < |b|], [r] has the sign
    of [a] (or is 0), and both fit in 32 bits. *)
Theorem idiv_irem_spec (exec : callee) (cls : class_file_t)
    (md mr : method_t) (f : frame) (w : world) (a b : Z) :
  fetch md f = Ok (Some i_idiv) ->
  fetch mr f = Ok (Some i_irem) ->
  rd (operand_stack f) (stack_count f - 2) = Ok a ->
  rd (operand_stack f) (stack_count f - 1) = Ok b ->
  is_int32 a -> is_int32 b ->
  (b = 0 ->
     step exec cls md f w = Err AssertFail /\
     step exec cls mr f w = Err AssertFail) /\
  (a = INT32_MIN /\ b = -1 ->
     step exec cls md f w = Err Undefined /\
     step exec cls mr f w = Err Undefined) /\
  (b <> 0 -> ~ (a = INT32_MIN /\ b = -1) ->
     exists q r,
       a = b * q + r /\ Z.abs r < Z.abs b /\
       (0 <= a -> 0 <= r) /\ (a <= 0 -> r <= 0) /\
       is_int32 q /\ is_int32 r /\
       step exec cls md f w =
         Ok (Continue
               (Frame (pc_plus (pc f) 1)
                  (<[Z.to_nat (stack_count f - 2) := q]> (operand_stack f))
                  (stack_count f - 1) (locals f)) w) /\
       step exec cls mr f w =
         Ok (Continue
               (Frame (pc_plus (pc f) 1)
                  (<[Z.to_nat (stack_count f - 2) := r]> (operand_stack f))
                  (stack_count f - 1) (locals f)) w)).
Proof.
  intros Hd Hr Ha Hb Hia Hib. destruct f as [p os sc ls].
  split; [|split].
  - intros ->. split; [enter_handler Hd|enter_handler Hr];
      rewrite Hb; reflexivity.
  - intros [-> ->]. split; [enter_handler Hd|enter_handler Hr];
      rewrite Hb; simpl; rewrite Ha; reflexivity.
  - intros Hnz Hnm. exists (Z.quot a b), (Z.rem a b).
    pose proof (Z.quot_rem' a b) as Hqr.
    pose proof (Z.rem_bound_abs a b Hnz) as Hbound.
    assert (Hpos : 0 <= a -> 0 <= Z.rem a b)
      by (intros; apply Z.rem_nonneg; auto).
    assert (Hneg : a <= 0 -> Z.rem a b <= 0)
      by (intros; apply Z.rem_nonpos; auto).
    assert (Hq : Z.abs (Z.quot a b) <= Z.abs a).
    { rewrite <- Z.quot_abs by exact Hnz.
      apply Z.quot_le_upper_bound; [lia|].
      pose proof (Z.abs_nonneg a). nia. }
    unfold is_int32, INT32_MIN, INT32_MAX in *.
    assert (Hq32 : - 2 ^ 31 <= Z.quot a b <= 2 ^ 31 - 1).
    { split; [lia|].
      destruct (decide (Z.quot a b = 2 ^ 31)) as [Heq|]; [|lia].
      exfalso. apply Hnm. rewrite Heq in Hqr. nia. }
    split_and!; try assumption; try lia.
    + enter_handler Hd. rewrite Hb; simpl.
      destruct (Z.eqb_spec b 0); [contradiction|]. simpl. rewrite Ha; simpl.
      unfold c_div. rewrite decide_False by exact Hnm. simpl.
      rewrite (wr_after_rd _ _ _ _ Ha). reflexivity.
    + enter_handler Hr. rewrite Hb; simpl.
      destruct (Z.eqb_spec b 0); [contradiction|]. simpl. rewrite Ha; simpl.
      unfold c_rem. rewrite decide_False by exact Hnm. simpl.
      rewrite (wr_after_rd _ _ _ _ Ha). reflexivity.
Qed.

(** X5: [ineg] replaces the top of the stack by its negation in 32 bits,
    which is [-v] for every [v] but [INT32_MIN], and [INT32_MIN] itself for
    [INT32_MIN]; a second [ineg] gives the operand stack back as it was. *)
Theorem ineg_twice (exec : callee) (cls : class_file_t) (m : method_t)
    (f : frame) (w : world) (v : Z) :
  fetch m f = Ok (Some i_ineg) ->
  rd (operand_stack f) (stack_count f - 1) = Ok v ->
  is_int32 v ->
  let n := if decide (v = INT32_MIN) then INT32_MIN else - v in
  let f1 :=
    Frame (pc_plus (pc f) 1)
      (<[Z.to_nat (stack_count f - 1) := n]> (operand_stack f))
      (stack_count f) (locals f) in
  step exec cls m f w = Ok (Continue f1 w) /\
  is_int32 n /\
  forall (exec' : callee) (cls' : class_file_t) (m' : method_t),
    fetch m' f1 = Ok (Some i_ineg) ->
    step exec' cls' m' f1 w =
      Ok (Continue
            (Frame (pc_plus (pc f1) 1) (operand_stack f) (stack_count f)
               (locals f)) w).
Proof.
  intros Hf Hv Hint n f1.
  assert (Hn : to_int32 (-1 * v) = n).
  { unfold n. case_decide as Hmin; [subst v; reflexivity|].
    rewrite to_int32_id; unfold is_int32, INT32_MIN, INT32_MAX in *; lia. }
  assert (Hn32 : is_int32 n) by (rewrite <- Hn; apply to_int32_range).
  assert (Hback : to_int32 (-1 * n) = v).
  { unfold n. case_decide as Hmin; [subst v; reflexivity|].
    rewrite to_int32_id; unfold is_int32, INT32_MIN, INT32_MAX in *; lia. }
  pose proof (rd_bounds _ _ _ Hv) as Hb.
  split; [|split; [exact Hn32|]].
  - destruct f as [p os sc ls]. enter_handler Hf. rewrite Hv; simpl.
    rewrite Hn, (wr_after_rd _ _ _ _ Hv). reflexivity.
  - intros exec' cls' m' Hf'. unfold f1 in *. destruct f as [p os sc ls].
    simpl in *. enter_handler Hf'.
    assert (Hrd : rd (<[Z.to_nat (sc - 1) := n]> os) (sc - 1) = Ok n).
    { apply rd_Ok. split; [lia|]. apply list_lookup_insert_eq. lia. }
    rewrite Hrd; simpl. rewrite Hback, (wr_after_rd _ _ _ _ Hrd).
    rewrite list_insert_insert_eq, list_insert_id; [reflexivity|].
    apply rd_Ok in Hv. tauto.
Qed.

Lemma to_int8_signed8 (b : byte) : to_int8 (u1 b) = signed8 (u1 b).
Proof.
  pose proof (u1_range b). unfold to_int8, wrap, signed8.
  change (2 ^ (8 - 1)) with 128. change (2 ^ 8) with 256.
  case_decide.
  - rewrite Z.mod_small; lia.
  - replace (u1 b + 128) with (u1 b - 128 + 1 * 256) by lia.
    rewrite Z_mod_plus_full, Z.mod_small; lia.
Qed.

Lemma to_int16_signed16 (b1 b2 : byte) :
  to_int16 (be16 b1 b2) = signed16 (u1 b1 * 256 + u1 b2).
Proof.
  pose proof (u1_range b1). pose proof (u1_range b2).
  rewrite be16_value. unfold to_int16, wrap, signed16.
  change (2 ^ (16 - 1)) with 32768. change (2 ^ 16) with 65536.
  case_decide.
  - rewrite Z.mod_small; lia.
  - replace (u1 b1 * 256 + u1 b2 + 32768)
      with (u1 b1 * 256 + u1 b2 - 32768 + 1 * 65536) by lia.
    rewrite Z_mod_plus_full, Z.mod_small; lia.
Qed.

(** X6: [bipush] pushes its operand byte read as a signed 8-bit number
    ([0x80..0xff] are [-128..-1]) and advances [pc] by 2; [sipush] pushes its
    two operand bytes, high byte first, read as a signed 16-bit number and
    advances [pc] by 3.  Neither reads the stack. *)
Theorem push_sign_extends (exec : callee) (cls : class_file_t)
    (m : method_t) (f : frame) (w : world) :
  0 <= stack_count f < Z.of_nat (length (operand_stack f)) ->
  (forall b,
      fetch m f = Ok (Some i_bipush) ->
      rd (code m) (pc_plus (pc f) 1) = Ok b ->
      - 128 <= signed8 (u1 b) <= 127 /\
      step exec cls m f w =
        Ok (Continue
              (Frame (pc_plus (pc f) 2)
                 (<[Z.to_nat (stack_count f) := signed8 (u1 b)]>
                    (operand_stack f))
                 (stack_count f + 1) (locals f)) w)) /\
  (forall b1 b2,
      fetch m f = Ok (Some i_sipush) ->
      rd (code m) (pc_plus (pc f) 1) = Ok b1 ->
      rd (code m) (pc_plus (pc f) 2) = Ok b2 ->
      - 32768 <= signed16 (u1 b1 * 256 + u1 b2) <= 32767 /\
      step exec cls m f w =
        Ok (Continue
              (Frame (pc_plus (pc f) 3)
                 (<[Z.to_nat (stack_count f) :=
                      signed16 (u1 b1 * 256 + u1 b2)]> (operand_stack f))
                 (stack_count f + 1) (locals f)) w)).
Proof.
  intros Hsc. destruct f as [p os sc ls]. simpl in Hsc. split.
  - intros b Hf Hb. pose proof (u1_range b). split.
    + unfold signed8. case_decide; lia.
    + enter_handler Hf. rewrite Hb; simpl.
      rewrite to_int8_signed8, wr_in_bounds by exact Hsc. reflexivity.
  - intros b1 b2 Hf Hb1 Hb2.
    pose proof (u1_range b1). pose proof (u1_range b2). split.
    + unfold signed16. case_decide; lia.
    + enter_handler Hf. rewrite Hb1; simpl. rewrite Hb2; simpl.
      rewrite to_int16_signed16, wr_in_bounds by exact Hsc. reflexivity.
Qed.

(** X7: [ishr] and [iushr] pop the count [b] then the value [a].  A negative
    count fails the assertion and a count of 32 or more has no defined
    result (no mask is applied).  For [0 <= b <= 31], [ishr] pushes
    [a / 2^b] rounded toward minus infinity; [iushr] pushes the unsigned
    32-bit pattern of [a] divided by [2^b], which is not negative as soon as
    [b >= 1], and is what [ishr] pushes whenever [a >= 0]. *)
Theorem ishr_iushr_spec (exec : callee) (cls : class_file_t)
    (ms mu : method_t) (f : frame) (w : world) (a b : Z) :
  fetch ms f = Ok (Some i_ishr) ->
  fetch mu f = Ok (Some i_iushr) ->
  rd (operand_stack f) (stack_count f - 2) = Ok a ->
  rd (operand_stack f) (stack_count f - 1) = Ok b ->
  is_int32 a ->
  (b < 0 ->
     step exec cls ms f w = Err AssertFail /\
     step exec cls mu f w = Err AssertFail) /\
  (32 <= b ->
     step exec cls ms f w = Err Undefined /\
     step exec cls mu f w = Err Undefined) /\
  (0 <= b < 32 ->
     exists u,
       step exec cls ms f w =
         Ok (Continue
               (Frame (pc_plus (pc f) 1)
                  (<[Z.to_nat (stack_count f - 2) := a / 2 ^ b]>
                     (operand_stack f))
                  (stack_count f - 1) (locals f)) w) /\
       step exec cls mu f w =
         Ok (Continue
               (Frame (pc_plus (pc f) 1)
                  (<[Z.to_nat (stack_count f - 2) := u]> (operand_stack f))
                  (stack_count f - 1) (locals f)) w) /\
       is_int32 (a / 2 ^ b) /\ is_int32 u /\
       u mod 2 ^ 32 = (a mod 2 ^ 32) / 2 ^ b /\
       (1 <= b -> u = (a mod 2 ^ 32) / 2 ^ b /\ 0 <= u) /\
       (0 <= a -> u = a / 2 ^ b)).
Proof.
  intros Hs Hu Ha Hb Hint. destruct f as [p os sc ls].
  split; [|split].
  - intros Hneg. split; [enter_handler Hs|enter_handler Hu];
      rewrite Hb; simpl; destruct (Z.leb_spec 0 b); try lia; reflexivity.
  - intros Hbig. split; [enter_handler Hs|enter_handler Hu];
      rewrite Hb; simpl; (destruct (Z.leb_spec 0 b); [simpl|lia]);
      rewrite Ha; simpl; unfold c_shr, c_ushr;
      rewrite decide_False by lia; reflexivity.
  - intros Hrange. exists (to_int32 (Z.shiftr (to_u4 a) b)).
    assert (H2b : 0 < 2 ^ b) by (apply Z.pow_pos_nonneg; lia).
    assert (Hu4 : 0 <= a mod 2 ^ 32 < 2 ^ 32) by (apply Z.mod_pos_bound; lia).
    assert (Hdiv : 0 <= a mod 2 ^ 32 / 2 ^ b < 2 ^ 32).
    { split; [apply Z.div_pos; lia|].
      apply Z.div_lt_upper_bound; [lia|]. nia. }
    unfold to_u4. rewrite !Z.shiftr_div_pow2 by lia.
    unfold is_int32, INT32_MIN, INT32_MAX in *.
    split_and!.
    + enter_handler Hs. rewrite Hb; simpl.
      destruct (Z.leb_spec 0 b); [simpl|lia]. rewrite Ha; simpl.
      unfold c_shr. rewrite decide_True by lia. simpl.
      rewrite Z.shiftr_div_pow2 by lia.
      rewrite (wr_after_rd _ _ _ _ Ha). reflexivity.
    + enter_handler Hu. rewrite Hb; simpl.
      destruct (Z.leb_spec 0 b); [simpl|lia]. rewrite Ha; simpl.
      unfold c_ushr. rewrite decide_True by lia. simpl.
      unfold to_u4. rewrite Z.shiftr_div_pow2 by lia.
      rewrite (wr_after_rd _ _ _ _ Ha). reflexivity.
    + apply Z.div_le_lower_bound; [lia|]. nia.
    + apply Z.div_le_upper_bound; [lia|]. nia.
    + apply to_int32_range.
    + apply to_int32_range.
    + rewrite to_int32_congruent. apply Z.mod_small. exact Hdiv.
    + intros H1.
      assert (H2 : 2 <= 2 ^ b)
        by (change 2 with (2 ^ 1) at 1; apply Z.pow_le_mono_r; lia).
      assert (a mod 2 ^ 32 / 2 ^ b < 2 ^ 31)
        by (apply Z.div_lt_upper_bound; [lia|]; nia).
      rewrite to_int32_id by (unfold is_int32, INT32_MIN, INT32_MAX; lia).
      split; [reflexivity|lia].
    + intros Hpos. rewrite (Z.mod_small a) by lia.
      assert (0 <= a / 2 ^ b <= a).
      { split; [apply Z.div_pos; lia|].
        apply Z.div_le_upper_bound; [lia|]. nia. }
      apply to_int32_id. unfold is_int32, INT32_MIN, INT32_MAX. lia.
Qed.

(** ** Locals *)

Lemma to_int32_add_l (x y : Z) : to_int32 (to_int32 x + y) = to_int32 (x + y).
Proof.
  unfold to_int32, wrap. f_equal.
  replace ((x + 2 ^ (32 - 1)) mod 2 ^ 32 - 2 ^ (32 - 1) + y + 2 ^ (32 - 1))
    with ((x + 2 ^ (32 - 1)) mod 2 ^ 32 + y) by lia.
  rewrite Zplus_mod_idemp_l. f_equal. lia.
Qed.

(** X8: [istore idx] pops the top of the stack into [locals[idx]] and leaves
    every other local as it was; an [iload idx] right after it pushes the
    same value back, so that the operand stack and its cursor are as before
    the pair.  The index must be inside the frame's locals. *)
Theorem istore_iload_roundtrip (exec : callee) (cls : class_file_t)
    (m : method_t) (f : frame) (w : world) (idx : byte) (v : Z) :
  fetch m f = Ok (Some i_istore) ->
  rd (code m) (pc_plus (pc f) 1) = Ok idx ->
  rd (operand_stack f) (stack_count f - 1) = Ok v ->
  u1 idx < Z.of_nat (length (locals f)) ->
  exists ls1,
    let f1 :=
      Frame (pc_plus (pc f) 2) (operand_stack f) (stack_count f - 1) ls1 in
    step exec cls m f w = Ok (Continue f1 w) /\
    rd ls1 (u1 idx) = Ok v /\
    length ls1 = length (locals f) /\
    (forall k, k <> u1 idx -> rd ls1 k = rd (locals f) k) /\
    forall (exec' : callee) (cls' : class_file_t) (m' : method_t),
      fetch m' f1 = Ok (Some i_iload) ->
      rd (code m') (pc_plus (pc f1) 1) = Ok idx ->
      step exec' cls' m' f1 w =
        Ok (Continue
              (Frame (pc_plus (pc f1) 2) (operand_stack f) (stack_count f)
                 ls1) w).
Proof.
  intros Hf Hidx Hv Hin. pose proof (u1_range idx) as Hu.
  destruct f as [p os sc ls]. simpl in *.
  exists (<[Z.to_nat (u1 idx) := v]> ls).
  assert (Hrd1 : rd (<[Z.to_nat (u1 idx) := v]> ls) (u1 idx) = Ok v).
  { apply rd_Ok. split; [lia|]. apply list_lookup_insert_eq. lia. }
  split_and!.
  - enter_handler Hf. rewrite Hidx; simpl. rewrite Hv; simpl.
    rewrite wr_in_bounds by lia. reflexivity.
  - exact Hrd1.
  - apply length_insert.
  - intros k Hk. unfold rd. case_decide; [|reflexivity].
    rewrite list_lookup_insert_ne by lia. reflexivity.
  - intros exec' cls' m' Hf' Hidx'. enter_handler Hf'.
    rewrite Hidx'; simpl. rewrite Hrd1; simpl.
    pose proof (rd_bounds _ _ _ Hv) as Hb.
    rewrite wr_in_bounds by lia. simpl.
    replace (sc - 1 + 1) with sc by lia.
    rewrite list_insert_id; [reflexivity|]. apply rd_Ok in Hv. tauto.
Qed.

(** X9: [iinc idx imm] adds the operand byte [imm], read as a signed 8-bit
    number, to [locals[idx]] in wrapping 32-bit arithmetic and touches
    neither the operand stack nor its cursor.  Followed by an [iinc] of the
    opposite amount it gives the locals back as they were, overflow or
    not. *)
Theorem iinc_and_back (exec : callee) (cls : class_file_t) (m : method_t)
    (f : frame) (w : world) (idx imm : byte) (old : Z) :
  fetch m f = Ok (Some i_iinc) ->
  rd (code m) (pc_plus (pc f) 1) = Ok idx ->
  rd (code m) (pc_plus (pc f) 2) = Ok imm ->
  rd (locals f) (u1 idx) = Ok old ->
  is_int32 old ->
  let new := to_int32 (old + signed8 (u1 imm)) in
  let f1 :=
    Frame (pc_plus (pc f) 3) (operand_stack f) (stack_count f)
      (<[Z.to_nat (u1 idx) := new]> (locals f)) in
  step exec cls m f w = Ok (Continue f1 w) /\
  (is_int32 (old + signed8 (u1 imm)) -> new = old + signed8 (u1 imm)) /\
  forall (exec' : callee) (cls' : class_file_t) (m' : method_t)
         (imm' : byte),
    fetch m' f1 = Ok (Some i_iinc) ->
    rd (code m') (pc_plus (pc f1) 1) = Ok idx ->
    rd (code m') (pc_plus (pc f1) 2) = Ok imm' ->
    signed8 (u1 imm') = - signed8 (u1 imm) ->
    step exec' cls' m' f1 w =
      Ok (Continue
            (Frame (pc_plus (pc f1) 3) (operand_stack f) (stack_count f)
               (locals f)) w).
Proof.
  intros Hf Hidx Himm Hold Hint new f1.
  pose proof (rd_bounds _ _ _ Hold) as Hb.
  destruct f as [p os sc ls]. simpl in *. split_and!.
  - enter_handler Hf. rewrite Hidx; simpl. rewrite Himm; simpl.
    rewrite Hold; simpl. rewrite to_int8_signed8.
    rewrite (wr_after_rd _ _ _ _ Hold). reflexivity.
  - apply to_int32_id.
  - intros exec' cls' m' imm' Hf' Hidx' Himm' Hopp. unfold f1 in *.
    enter_handler Hf'. rewrite Hidx'; simpl. rewrite Himm'; simpl.
    assert (Hrd : rd (<[Z.to_nat (u1 idx) := new]> ls) (u1 idx) = Ok new).
    { apply rd_Ok. split; [lia|]. apply list_lookup_insert_eq. lia. }
    rewrite Hrd; simpl. rewrite (wr_after_rd _ _ _ _ Hrd).
    rewrite to_int8_signed8, Hopp.
    assert (Hback : to_int32 (new + - signed8 (u1 imm)) = old).
    { unfold new. rewrite to_int32_add_l.
      replace (old + signed8 (u1 imm) + - signed8 (u1 imm)) with old by lia.
      apply to_int32_id, Hint. }
    rewrite Hback. simpl.
    rewrite list_insert_insert_eq, list_insert_id; [reflexivity|].
    apply rd_Ok in Hold. tauto.
Qed.

(** ** Leaving the code *)

(** X10: [goto] sets [pc] to its own address plus the signed 16-bit
    displacement and touches nothing else.  When that target is inside the
    code the next turn starts there; when it is negative or at or beyond
    [code_length] the loop ends and the activation returns no value, with
    the world as it was: a branch out of the code is not reported. *)
Theorem goto_spec (exec : callee) (cls : class_file_t) (m : method_t)
    (f : frame) (w : world) (b1 b2 : byte) :
  pc_valid m f ->
  fetch m f = Ok (Some i_goto) ->
  rd (code m) (pc f + 1) = Ok b1 ->
  rd (code m) (pc f + 2) = Ok b2 ->
  let target := pc f + signed16 (u1 b1 * 256 + u1 b2) in
  (0 <= target ->
     step exec cls m f w =
       Ok (Continue
             (Frame target (operand_stack f) (stack_count f) (locals f))
             w)) /\
  (target < 0 \/ code_length m <= target ->
     forall fuel : nat,
       run (S (S fuel)) cls m f w = Ok (void_result, w)).
Proof.
  intros [Hpc Hlen] Hf H1 H2 target.
  pose proof (u1_range b1). pose proof (u1_range b2).
  assert (Hs : - 32768 <= signed16 (u1 b1 * 256 + u1 b2) <= 32767)
    by (unfold signed16; case_decide; lia).
  assert (Hstep : forall e,
    step e cls m f w =
      Ok (Continue
            (Frame (to_size_t target) (operand_stack f) (stack_count f)
               (locals f)) w)).
  { intros e. destruct f as [p os sc ls]. simpl in *. enter_handler Hf.
    unfold branch. rewrite !pc_plus_small by lia.
    rewrite H1; simpl. rewrite H2; simpl.
    rewrite to_int16_signed16. reflexivity. }
  split.
  - intros Hnn. rewrite Hstep. unfold to_size_t.
    rewrite Z.mod_small by (unfold target in *; lia). reflexivity.
  - intros Hout fuel. rewrite run_S, decide_True by lia.
    rewrite Hstep. simpl. rewrite decide_False; [reflexivity|].
    simpl. unfold to_size_t. destruct Hout as [Hneg|Hbig].
    + replace target with (target + 2 ^ 64 + (-1) * 2 ^ 64) by lia.
      rewrite Z_mod_plus_full, Z.mod_small by (unfold target in *; lia).
      unfold target in *. lia.
    + rewrite Z.mod_small by (unfold target in *; lia). lia.
Qed.

(** ** Array bounds *)

(** X12: the array handlers check no index.  An [iastore] with index [-1]
    stores into slot 0 of the backing array, where [newarray] recorded the
    count: it succeeds, and from then on [arraylength] on that reference
    pushes the value stored instead of the count. *)
Theorem iastore_overwrites_count (exec : callee) (cls : class_file_t)
    (m : method_t) (f : frame) (w : world) (ref count v : Z) :
  is_array (heap w) ref count ->
  fetch m f = Ok (Some i_iastore) ->
  rd (operand_stack f) (stack_count f - 3) = Ok ref ->
  rd (operand_stack f) (stack_count f - 2) = Ok (-1) ->
  rd (operand_stack f) (stack_count f - 1) = Ok v ->
  exists h',
    step exec cls m f w =
      Ok (Continue
            (Frame (pc_plus (pc f) 1) (operand_stack f) (stack_count f - 3)
               (locals f))
            (World h' (stdout w))) /\
    slot0 h' ref = Ok v /\
    forall (exec' : callee) (cls' : class_file_t) (m' : method_t)
           (f' : frame) (out' : list Z),
      fetch m' f' = Ok (Some i_arraylength) ->
      rd (operand_stack f') (stack_count f' - 1) = Ok ref ->
      step exec' cls' m' f' (World h' out') =
        Ok (Continue
              (Frame (pc_plus (pc f') 1)
                 (<[Z.to_nat (stack_count f' - 1) := v]> (operand_stack f'))
                 (stack_count f') (locals f'))
              (World h' out')).
Proof.
  intros (arr & Hget & Hlen & H0 & Hint) Hf Hr Hidx Hv.
  set (arr' := <[0%nat := v]> arr).
  assert (Hwr : wr arr (to_int32 (-1 + 1)) v = Ok arr').
  { change (to_int32 (-1 + 1)) with 0. apply (wr_after_rd _ _ _ _ H0). }
  set (h' := <[Z.to_nat ref := arr']> (heap w)).
  assert (Hset : heap_set (heap w) ref arr' = Ok h')
    by (eapply wr_after_rd, Hget).
  assert (Hget' : heap_get h' ref = Ok arr')
    by (eapply heap_get_set_same, Hset).
  assert (Hrd' : rd arr' 0 = Ok v) by (eapply rd_wr_same, Hwr).
  exists h'. split_and!.
  - destruct f as [p os sc ls]. enter_handler Hf.
    rewrite Hv; simpl. rewrite Hidx; simpl. rewrite Hr; simpl.
    rewrite Hget; simpl. rewrite Hwr; simpl. rewrite Hset. reflexivity.
  - unfold slot0. rewrite Hget'. exact Hrd'.
  - intros exec' cls' m' f' out' Hf' Hr'. destruct f' as [p os sc ls].
    enter_handler Hf'. rewrite Hr'; simpl. rewrite Hget'; simpl.
    rewrite Hrd'; simpl. rewrite (wr_after_rd _ _ _ _ Hr'). reflexivity.
Qed.

(** X13: [iaload] on an array of [count] elements has a result exactly for
    the indices [-1 <= i < count]: at [-1] it pushes the count kept in
    slot 0, and outside that range it reads outside the block of
    [count + 1] words. *)
Theorem iaload_bounds (exec : callee) (cls : class_file_t) (m : method_t)
    (f : frame) (w : world) (ref count i : Z) :
  is_array (heap w) ref count ->
  fetch m f = Ok (Some i_iaload) ->
  rd (operand_stack f) (stack_count f - 2) = Ok ref ->
  rd (operand_stack f) (stack_count f - 1) = Ok i ->
  is_int32 i ->
  (i < -1 \/ count <= i -> step exec cls m f w = Err Undefined) /\
  (-1 <= i < count ->
     exists v,
       step exec cls m f w =
         Ok (Continue
               (Frame (pc_plus (pc f) 1)
                  (<[Z.to_nat (stack_count f - 2) := v]> (operand_stack f))
                  (stack_count f - 1) (locals f)) w) /\
       (i = -1 -> v = count)).
Proof.
  intros (arr & Hget & Hlen & H0 & Hint) Hf Hr Hi Hi32.
  destruct f as [p os sc ls]. simpl in *.
  unfold is_int32, INT32_MIN, INT32_MAX in *. split.
  - intros Hout. enter_handler Hf. rewrite Hi; simpl. rewrite Hr; simpl.
    rewrite Hget; simpl.
    assert (Hno : rd arr (to_int32 (i + 1)) = Err Undefined).
    { unfold rd. case_decide as Hnn; [|reflexivity].
      destruct (decide (i = 2 ^ 31 - 1)) as [->|Hne].
      - exfalso. revert Hnn. vm_compute. auto.
      - rewrite to_int32_id in Hnn |- *
          by (unfold is_int32, INT32_MIN, INT32_MAX; lia).
        rewrite (lookup_ge_None_2 arr) by lia. reflexivity. }
    rewrite Hno. reflexivity.
  - intros Hin.
    assert (H32 : to_int32 (i + 1) = i + 1)
      by (apply to_int32_id; unfold is_int32, INT32_MIN, INT32_MAX; lia).
    destruct (lookup_lt_is_Some_2 arr (Z.to_nat (i + 1))) as [v Hv]; [lia|].
    exists v. split.
    + enter_handler Hf. rewrite Hi; simpl. rewrite Hr; simpl.
      rewrite Hget; simpl. rewrite H32.
      assert (Hrd : rd arr (i + 1) = Ok v) by (apply rd_Ok; split; [lia|auto]).
      rewrite Hrd; simpl. rewrite (wr_after_rd _ _ _ _ Hr). reflexivity.
    + intros ->. apply rd_Ok in H0 as [_ H0].
      change (Z.to_nat (-1 + 1)) with (Z.to_nat 0) in Hv. congruence.
Qed.

(** ** Reference forms *)

(** X14: the reference forms of the stores and of the return do what the
    integer forms do, failures included: [astore] is [istore] and
    [astore_k] is [istore_k] (pop into [locals[k]], [pc] advanced by 2 and
    by 1), and [areturn] is [ireturn] (the top of the stack is the value
    returned). *)
Theorem reference_forms_same (exec : callee) (cls : class_file_t)
    (mi ma : method_t) (f : frame) (w : world) :
  (fetch mi f = Ok (Some i_istore) ->
   fetch ma f = Ok (Some i_astore) ->
   rd (code ma) (pc_plus (pc f) 1) = rd (code mi) (pc_plus (pc f) 1) ->
   step exec cls ma f w = step exec cls mi f w /\
   step exec cls mi f w =
     (idx ← rd (code mi) (pc_plus (pc f) 1); store_local (u1 idx) 2 f w)) /\
  (forall (k : Z) (bi ba : byte),
      0 <= k <= 3 ->
      rd (code mi) (pc f) = Ok bi ->
      rd (code ma) (pc f) = Ok ba ->
      u1 bi = opcode i_istore_0 + k ->
      u1 ba = opcode i_astore_0 + k ->
      step exec cls ma f w = step exec cls mi f w /\
      step exec cls mi f w = store_local k 1 f w) /\
  (fetch mi f = Ok (Some i_ireturn) ->
   fetch ma f = Ok (Some i_areturn) ->
   step exec cls ma f w = step exec cls mi f w /\
   step exec cls mi f w = return_top f w).
Proof.
  split; [|split].
  - intros Hi Ha Hidx.
    assert (Hmi : step exec cls mi f w =
              (idx ← rd (code mi) (pc_plus (pc f) 1);
               store_local (u1 idx) 2 f w)).
    { destruct f as [p os sc ls]. enter_handler Hi. reflexivity. }
    assert (Hma : step exec cls ma f w =
              (idx ← rd (code ma) (pc_plus (pc f) 1);
               store_local (u1 idx) 2 f w)).
    { destruct f as [p os sc ls]. enter_handler Ha. reflexivity. }
    split; [rewrite Hma, Hmi, Hidx; reflexivity | exact Hmi].
  - intros k bi ba Hk Hbi Hba Hui Hua.
    assert (Hmi : step exec cls mi f w = store_local k 1 f w).
    { destruct f as [p os sc ls]. unfold step, step_with. simpl in Hbi.
      rewrite Hbi; simpl. unfold store_local; simpl.
      replace k with (u1 bi - opcode i_istore_0) by lia.
      assert (Hcase : k = 0 \/ k = 1 \/ k = 2 \/ k = 3) by lia.
      destruct Hcase as [-> | [-> | [-> | ->]]];
        [ rewrite (decode_complete bi i_istore_0) by exact Hui
        | rewrite (decode_complete bi i_istore_1) by exact Hui
        | rewrite (decode_complete bi i_istore_2) by exact Hui
        | rewrite (decode_complete bi i_istore_3) by exact Hui ];
        reflexivity. }
    assert (Hma : step exec cls ma f w = store_local k 1 f w).
    { destruct f as [p os sc ls]. unfold step, step_with. simpl in Hba.
      rewrite Hba; simpl. unfold store_local; simpl.
      replace k with (u1 ba - opcode i_astore_0) by lia.
      assert (Hcase : k = 0 \/ k = 1 \/ k = 2 \/ k = 3) by lia.
      destruct Hcase as [-> | [-> | [-> | ->]]];
        [ rewrite (decode_complete ba i_astore_0) by exact Hua
        | rewrite (decode_complete ba i_astore_1) by exact Hua
        | rewrite (decode_complete ba i_astore_2) by exact Hua
        | rewrite (decode_complete ba i_astore_3) by exact Hua ];
        reflexivity. }
    split; congruence.
  - intros Hi Ha.
    assert (Hmi : step exec cls mi f w = return_top f w).
    { destruct f as [p os sc ls]. enter_handler Hi. reflexivity. }
    assert (Hma : step exec cls ma f w = return_top f w).
    { destruct f as [p os sc ls]. enter_handler Ha. reflexivity. }
    split; congruence.
Qed.

(** ** The locals block *)

Lemma step_locals_length (exec : callee) (cls : class_file_t)
    (m : method_t) (f f' : frame) (w w' : world) :
  step exec cls m f w = Ok (Continue f' w') ->
  length (locals f') = length (locals f).
Proof.
  intros H. destruct f as [p os sc ls]. unfold step, step_with in H.
  apply bind_Ok in H as (opc & _ & H).
  destruct (decode opc) as [i|]; [destruct i|];
    try (handler_inv H; inversion H; subst; simpl;
         rewrite ?length_insert; reflexivity).
  apply bind_Ok in H as (b1 & _ & H). apply bind_Ok in H as (b2 & _ & H).
  apply bind_Ok in H as (meth & _ & H).
  apply bind_Ok in H as ([lq sc1] & _ & H).
  apply bind_Ok in H as ([res w1] & _ & H).
  destruct (has_value res); handler_inv H; inversion H; subst; reflexivity.
Qed.

(** X15: the locals of an activation are one block of fixed size: at every
    instruction boundary the frame has as many locals as it was entered
    with, whatever was stored, incremented or called in between.  (A store
    beyond the block is an access outside it and leaves no boundary.) *)
Theorem locals_block_fixed (exec : callee) (cls : class_file_t)
    (m : method_t) (locals0 : list Z) (w0 : world) (f : frame) (w : world) :
  boundary exec cls m locals0 w0 f w ->
  length (locals f) = length locals0.
Proof.
  intros Hb. induction Hb as [|f w f' w' _ IH _ Hstep]; [reflexivity|].
  rewrite (step_locals_length _ _ _ _ _ _ _ Hstep). exact IH.
Qed.

(** ** Constants *)

(** X16: [ldc b] pushes the payload of the integer entry at the 1-based
    constant-pool index [b] and advances [pc] by 2.  An operand of 0, an
    index beyond the pool, and an entry that is no integer constant have no
    defined result: the handler checks neither the index nor the kind of the
    entry. *)
Theorem ldc_spec (exec : callee) (cls : class_file_t) (m : method_t)
    (f : frame) (w : world) (b : byte) :
  fetch m f = Ok (Some i_ldc) ->
  rd (code m) (pc_plus (pc f) 1) = Ok b ->
  0 <= stack_count f < Z.of_nat (length (operand_stack f)) ->
  (u1 b = 0 \/ Z.of_nat (length (constant_pool cls)) < u1 b ->
     step exec cls m f w = Err Undefined) /\
  (forall entry,
      1 <= u1 b ->
      constant_pool cls !! Z.to_nat (u1 b - 1) = Some entry ->
      match entry with
      | CONSTANT_Integer_info v =>
          step exec cls m f w =
            Ok (Continue
                  (Frame (pc_plus (pc f) 2)
                     (<[Z.to_nat (stack_count f) := v]> (operand_stack f))
                     (stack_count f + 1) (locals f)) w)
      | CONSTANT_other => step exec cls m f w = Err Undefined
      end).
Proof.
  intros Hf Hb Hsc. pose proof (u1_range b) as Hu.
  destruct f as [p os sc ls]. simpl in *. split.
  - intros Hbad. enter_handler Hf. rewrite Hb; simpl.
    assert (Hno : rd (constant_pool cls) (u1 b - 1) = Err Undefined).
    { unfold rd. case_decide; [|reflexivity].
      rewrite (lookup_ge_None_2 (constant_pool cls)) by lia. reflexivity. }
    rewrite Hno. reflexivity.
  - intros entry H1 Hentry.
    assert (Hrd : rd (constant_pool cls) (u1 b - 1) = Ok entry)
      by (apply rd_Ok; split; [lia|exact Hentry]).
    destruct entry as [v|]; enter_handler Hf; rewrite Hb; simpl;
      rewrite Hrd; simpl; [|reflexivity].
    rewrite wr_in_bounds by exact Hsc. reflexivity.
Qed.

(** ** Every word is a 32-bit integer *)

Lemma int32_shiftr_31 (z : Z) :
  is_int32 z <-> Z.shiftr z 31 = 0 \/ Z.shiftr z 31 = -1.
Proof.
  unfold is_int32, INT32_MIN, INT32_MAX. rewrite Z.shiftr_div_pow2 by lia.
  pose proof (Z.div_mod z (2 ^ 31)) as Hdm.
  pose proof (Z.mod_pos_bound z (2 ^ 31)) as Hm. split.
  - intros Hz. destruct (decide (0 <= z)).
    + left. apply Z.div_small. lia.
    + right. symmetry. apply (Z.div_unique z (2 ^ 31) (-1) (z + 2 ^ 31)); lia.
  - intros [H|H]; rewrite H in Hdm; lia.
Qed.

Lemma land_int32 (a b : Z) : is_int32 a -> is_int32 b -> is_int32 (Z.land a b).
Proof.
  rewrite !int32_shiftr_31, Z.shiftr_land.
  intros [-> | ->] [-> | ->]; simpl; auto.
Qed.

Lemma lor_int32 (a b : Z) : is_int32 a -> is_int32 b -> is_int32 (Z.lor a b).
Proof.
  rewrite !int32_shiftr_31, Z.shiftr_lor.
  intros [-> | ->] [-> | ->]; simpl; auto.
Qed.

Lemma lxor_int32 (a b : Z) : is_int32 a -> is_int32 b -> is_int32 (Z.lxor a b).
Proof.
  rewrite !int32_shiftr_31, Z.shiftr_lxor.
  intros [-> | ->] [-> | ->]; simpl; auto.
Qed.

Lemma to_int8_int32 (z : Z) : is_int32 (to_int8 z).
Proof.
  pose proof (wrap_range 8 z). unfold to_int8, is_int32, INT32_MIN, INT32_MAX.
  change (2 ^ (8 - 1)) with 128 in *. lia.
Qed.

Lemma to_int16_int32 (z : Z) : is_int32 (to_int16 z).
Proof.
  pose proof (wrap_range 16 z).
  unfold to_int16, is_int32, INT32_MIN, INT32_MAX.
  change (2 ^ (16 - 1)) with 32768 in *. lia.
Qed.

Lemma iconst_int32 (b : byte) : is_int32 (u1 b - 3).
Proof.
  pose proof (u1_range b). unfold is_int32, INT32_MIN, INT32_MAX. lia.
Qed.

Lemma c_div_int32 (a b q : Z) :
  is_int32 a -> is_int32 b -> c_div a b = Ok q -> is_int32 q.
Proof.
  unfold c_div. intros Ha Hb H. case_decide as Hnm; [discriminate|].
  inversion H; subst q. clear H.
  destruct (decide (b = 0)) as [->|Hnz].
  { replace (Z.quot a 0) with 0 by (destruct a; reflexivity).
    unfold is_int32, INT32_MIN, INT32_MAX. lia. }
  pose proof (Z.quot_rem' a b) as Hqr.
  pose proof (Z.rem_bound_abs a b Hnz) as Hbound.
  assert (Hq : Z.abs (Z.quot a b) <= Z.abs a).
  { rewrite <- Z.quot_abs by exact Hnz.
    apply Z.quot_le_upper_bound; [lia|].
    pose proof (Z.abs_nonneg a). nia. }
  unfold is_int32, INT32_MIN, INT32_MAX in *. split; [lia|].
  destruct (decide (Z.quot a b = 2 ^ 31)) as [Heq|]; [|lia].
  exfalso. apply Hnm. rewrite Heq in Hqr. nia.
Qed.

Lemma c_rem_int32 (a b r : Z) :
  is_int32 a -> is_int32 b -> c_rem a b = Ok r -> is_int32 r.
Proof.
  unfold c_rem. intros Ha Hb H. case_decide; [discriminate|].
  inversion H; subst r. clear H.
  destruct (decide (b = 0)) as [->|Hnz].
  { replace (Z.rem a 0) with a by (destruct a; reflexivity). exact Ha. }
  pose proof (Z.rem_bound_abs a b Hnz).
  unfold is_int32, INT32_MIN, INT32_MAX in *. lia.
Qed.

Lemma c_shl_int32 (a b r : Z) : c_shl a b = Ok r -> is_int32 r.
Proof.
  unfold c_shl. intros Hr. inversion Hr. apply to_int32_range.
Qed.

Lemma c_ushr_int32 (a b r : Z) : c_ushr a b = Ok r -> is_int32 r.
Proof.
  unfold c_ushr. case_decide; [|discriminate].
  intros Hr. inversion Hr. apply to_int32_range.
Qed.

Lemma c_shr_int32 (a b r : Z) : is_int32 a -> c_shr a b = Ok r -> is_int32 r.
Proof.
  unfold c_shr. intros Ha. case_decide as Hb; [|discriminate].
  intros Hr. inversion Hr; subst r. rewrite Z.shiftr_div_pow2 by lia.
  assert (0 < 2 ^ b) by (apply Z.pow_pos_nonneg; lia).
  unfold is_int32, INT32_MIN, INT32_MAX in *. split.
  - apply Z.div_le_lower_bound; [lia|]. nia.
  - apply Z.div_le_upper_bound; [lia|]. nia.
Qed.

Lemma rd_Forall {A : Type} (P : A -> Prop) (a : list A) (i : Z) (v : A) :
  Forall P a -> rd a i = Ok v -> P v.
Proof.
  intros Hall [_ H]%rd_Ok. eapply Forall_lookup_1; eauto.
Qed.

Lemma wr_Forall {A : Type} (P : A -> Prop) (a a' : list A) (i : Z) (v : A) :
  Forall P a -> P v -> wr a i v = Ok a' -> Forall P a'.
Proof.
  intros Hall Hv [_ ->]%wr_Ok. apply Forall_insert; assumption.
Qed.

Lemma calloc_int32 (n : Z) : Forall is_int32 (calloc n).
Proof.
  apply Forall_replicate. unfold is_int32, INT32_MIN, INT32_MAX. lia.
Qed.

Lemma pop_arguments_int32 (n : nat) (lq os lq' : list Z) (sc sc' : Z) :
  Forall is_int32 lq -> Forall is_int32 os ->
  pop_arguments n lq os sc = Ok (lq', sc') ->
  Forall is_int32 lq'.
Proof.
  revert lq sc. induction n as [|i IH]; intros lq sc Hlq Hos H.
  - inversion H; subst. exact Hlq.
  - cbn [pop_arguments] in H.
    apply bind_Ok in H as (v & Hv & H). apply bind_Ok in H as (lq1 & Hw & H).
    eapply IH; [|exact Hos|exact H].
    eapply wr_Forall; [exact Hlq| |exact Hw]. eapply rd_Forall; eauto.
Qed.

Lemma zero_fill_int32 (n : nat) (i : Z) (a a' : list Z) :
  Forall is_int32 a -> zero_fill n i a = Ok a' -> Forall is_int32 a'.
Proof.
  revert i a. induction n as [|n IH]; intros i a Ha H.
  - inversion H; subst. exact Ha.
  - cbn [zero_fill] in H. apply bind_Ok in H as (a1 & Hw & H).
    eapply IH; [|exact H]. eapply wr_Forall; [exact Ha| |exact Hw].
    unfold is_int32, INT32_MIN, INT32_MAX. lia.
Qed.

Lemma c_assert_Ok (b : bool) (u : unit) : c_assert b = Ok u -> b = true.
Proof. destruct b; [reflexivity|discriminate]. Qed.

(** Turns every access of a successful handler into what it says of the
    words read and written. *)
Ltac int32_words :=
  repeat match goal with
  | H : rd (code _) _ = Ok _ |- _ => clear H
  | Hl : Forall ?P ?a, H : rd ?a _ = Ok _ |- _ =>
      apply (rd_Forall P _ _ _ Hl) in H
  | Hl : heap_int32 ?h, H : heap_get ?h _ = Ok _ |- _ =>
      apply (rd_Forall _ _ _ _ Hl) in H
  | H : wr _ _ _ = Ok _ |- _ => apply wr_Ok in H as [_ ->]
  | H : c_shl _ _ = Ok _ |- _ => apply c_shl_int32 in H
  | H : c_ushr _ _ = Ok _ |- _ => apply c_ushr_int32 in H
  | Ha : is_int32 ?a, H : c_shr ?a _ = Ok _ |- _ =>
      apply (c_shr_int32 _ _ _ Ha) in H
  | Ha : is_int32 ?a, Hb : is_int32 ?b, H : c_div ?a ?b = Ok _ |- _ =>
      apply (c_div_int32 _ _ _ Ha Hb) in H
  | Ha : is_int32 ?a, Hb : is_int32 ?b, H : c_rem ?a ?b = Ok _ |- _ =>
      apply (c_rem_int32 _ _ _ Ha Hb) in H
  end.

Ltac int32_done :=
  repeat first
    [ assumption
    | apply Forall_insert
    | apply to_int32_range | apply to_int8_int32 | apply to_int16_int32
    | apply iconst_int32
    | apply land_int32 | apply lor_int32 | apply lxor_int32
    | solve [unfold is_int32, INT32_MIN, INT32_MAX; simpl; lia] ].

(** A turn on 32-bit words leaves 32-bit words: in the frame it continues
    with, in the heap, and in the value it returns. *)
Lemma step_int32 (bound : Z) (exec : callee) (cls : class_file_t)
    (m : method_t) (f : frame) (w : world) (r : step_result) :
  bound <= 2 ^ 31 ->
  frame_int32 f ->
  heap_int32 (heap w) ->
  pool_int32 cls ->
  callee_int32 bound exec ->
  step exec cls m f w = Ok r ->
  Z.of_nat (length (heap (world_of r))) <= bound ->
  result_int32 r.
Proof.
  intros Hbound [Hos Hls] Hheap Hpool Hexec H Hsize.
  destruct f as [p os sc ls]. simpl in Hos, Hls. unfold step, step_with in H.
  apply bind_Ok in H as (opc & _ & H).
  destruct (decode opc) as [i|]; [destruct i|];
    try (repeat first [ apply bind_Ok in H as (? & ? & H)
                      | progress (simpl in H) ];
         int32_words; inversion H; subst; simpl;
         unfold frame_int32; simpl; split_and!; int32_done; fail).
  - (* ldc *)
    apply bind_Ok in H as (b & _ & H). apply bind_Ok in H as (e & He & H).
    apply bind_Ok in H as (v & Hv & H). apply bind_Ok in H as (os' & Hw & H).
    inversion H; subst; simpl. unfold frame_int32; simpl.
    split_and!; int32_done.
    eapply wr_Forall; [exact Hos| |exact Hw].
    destruct e as [v0|]; [|discriminate]. inversion Hv; subst v0.
    apply Hpool. apply rd_Ok in He as [_ He].
    eapply list_elem_of_lookup_2, He.
  - (* iastore *)
    apply bind_Ok in H as (v & Hv & H). apply bind_Ok in H as (index & _ & H).
    apply bind_Ok in H as (ref & _ & H). apply bind_Ok in H as (arr & Hget & H).
    apply bind_Ok in H as (arr' & Hwr & H). apply bind_Ok in H as (h' & Hset & H).
    inversion H; subst; simpl. unfold frame_int32; simpl.
    split_and!; int32_done.
    eapply wr_Forall; [exact Hheap| |exact Hset].
    eapply wr_Forall; [|eapply rd_Forall; [exact Hos|exact Hv]|exact Hwr].
    eapply (rd_Forall (Forall is_int32)); [exact Hheap|exact Hget].
  - (* invokestatic *)
    apply bind_Ok in H as (b1 & _ & H). apply bind_Ok in H as (b2 & _ & H).
    apply bind_Ok in H as (meth & _ & H).
    apply bind_Ok in H as ([lq sc1] & Hpop & H).
    apply bind_Ok in H as ([res w1] & Hcall & H).
    apply pop_arguments_int32 in Hpop; [|apply calloc_int32|exact Hos].
    assert (Hw1 : world_of r = w1).
    { destruct (has_value res); handler_inv H; inversion H; reflexivity. }
    rewrite Hw1 in Hsize.
    destruct (Hexec _ _ _ _ _ Hpop Hheap Hcall Hsize) as [Hval Hheap1].
    destruct (has_value res).
    + apply bind_Ok in H as (os' & Hw & H). inversion H; subst; simpl.
      unfold frame_int32; simpl. split_and!; int32_done.
      eapply wr_Forall; [exact Hos|exact Hval|exact Hw].
    + inversion H; subst; simpl. unfold frame_int32; simpl. auto.
  - (* newarray *)
    apply bind_Ok in H as (count & Hc & H). apply bind_Ok in H as (size & _ & H).
    apply bind_Ok in H as (u & _ & H).
    apply bind_Ok in H as (a0 & Ha0 & H). apply bind_Ok in H as (a1 & Ha1 & H).
    unfold heap_add in H. apply bind_Ok in H as (os' & Hw & H).
    inversion H; subst; simpl in *. rewrite length_app in Hsize.
    simpl in Hsize. unfold frame_int32; simpl. split_and!; int32_done.
    + eapply wr_Forall; [exact Hos| |exact Hw].
      unfold is_int32, INT32_MIN, INT32_MAX. lia.
    + apply Forall_app. split; [exact Hheap|].
      apply Forall_singleton. eapply zero_fill_int32; [|exact Ha1].
      eapply wr_Forall; [apply calloc_int32| |exact Ha0].
      eapply rd_Forall; [exact Hos|exact Hc].
Qed.

Lemma run_heap_length (fuel : nat) (cls : class_file_t) (m : method_t)
    (f : frame) (w : world) (res : optional_value_t) (w' : world) :
  run fuel cls m f w = Ok (res, w') ->
  (length (heap w) <= length (heap w'))%nat.
Proof.
  intros H.
  apply (run_respects
           (fun w0 w1 => (length (heap w0) <= length (heap w1))%nat)) in H;
    [exact H|..]; simpl.
  - intros. lia.
  - intros. lia.
  - intros. lia.
  - intros. rewrite length_app. simpl. lia.
  - intros w0 ref arr j v h' _ _ Hset. apply wr_length in Hset. lia.
Qed.

Lemma run_int32 (fuel : nat) (cls : class_file_t) (m : method_t)
    (f : frame) (w : world) (res : optional_value_t) (w' : world) :
  pool_int32 cls ->
  frame_int32 f ->
  heap_int32 (heap w) ->
  run fuel cls m f w = Ok (res, w') ->
  Z.of_nat (length (heap w')) <= 2 ^ 31 ->
  is_int32 (value res) /\ heap_int32 (heap w').
Proof.
  intros Hpool. revert m f w res w'.
  induction fuel as [|n IH]; intros m f w res w' Hf Hh H Hsize.
  - discriminate H.
  - rewrite run_S in H. case_decide.
    + apply bind_Ok in H as (r & Hstep & H).
      assert (Hr : result_int32 r).
      { eapply (step_int32 (2 ^ 31)); [lia|exact Hf|exact Hh|exact Hpool| |
                                       exact Hstep|].
        - intros meth l w0 res0 w1 Hl Hh0 Hcall Hs.
          eapply IH; [|exact Hh0|exact Hcall|exact Hs].
          split; [apply calloc_int32|exact Hl].
        - destruct r as [f1 w1|v w1]; simpl.
          + apply run_heap_length in H. lia.
          + inversion H; subst. exact Hsize. }
      destruct r as [f1 w1|v w1]; simpl in Hr.
      * destruct Hr as [Hf1 Hh1]. eapply IH; eauto.
      * inversion H; subst. exact Hr.
    + inversion H; subst. split; [|exact Hh].
      unfold is_int32, INT32_MIN, INT32_MAX. simpl. lia.
Qed.

(** X17: every word the interpreter produces is a 32-bit integer.  When
    [execute] is entered with 32-bit locals, a heap of 32-bit words and a
    constant pool of 32-bit integers, and returns with at most [2^31] arrays
    on the heap (so that every reference is an [int32_t]), the value it
    returns and every array element are 32-bit integers: no handler lets an
    unreduced sum, product, shift, quotient or constant through. *)
Theorem execute_int32 (fuel : nat) (method : method_t) (locals0 : list Z)
    (cls : class_file_t) (w : world) (res : optional_value_t) (w' : world) :
  pool_int32 cls ->
  Forall is_int32 locals0 ->
  heap_int32 (heap w) ->
  execute fuel method locals0 cls w = Ok (res, w') ->
  Z.of_nat (length (heap w')) <= 2 ^ 31 ->
  is_int32 (value res) /\ heap_int32 (heap w').
Proof.
  intros Hpool Hl Hh H Hsize.
  eapply run_int32; [exact Hpool| |exact Hh|exact H|exact Hsize].
  split; [apply calloc_int32|exact Hl].
Qed.

(** ** Stack effect, length, output *)

(** X18: every handler changes the cursor by the amount the instruction set
    gives its opcode, whatever the operands ([invokestatic] apart), and
    every handler that falls through advances [pc] by the length of its
    instruction: 1, 2 or 3 bytes. *)
Theorem stack_effect_and_length (exec : callee) (cls : class_file_t)
    (m : method_t) (f f' : frame) (w w' : world) (i : jvm_instruction_t) :
  fetch m f = Ok (Some i) ->
  step exec cls m f w = Ok (Continue f' w') ->
  (i <> i_invokestatic ->
     stack_count f' = stack_count f + stack_effect i) /\
  (forall len, instruction_length i = Some len ->
     pc f' = pc_plus (pc f) len /\ 1 <= len <= 3).
Proof.
  intros (opc & Hopc & Hdec)%fetch_Ok H. destruct f as [p os sc ls].
  unfold step, step_with in H. simpl in Hopc. rewrite Hopc in H. simpl in H.
  rewrite Hdec in H.
  destruct i;
    try (handler_inv H; inversion H; fail);
    try (handler_inv H; inversion H; subst; simpl;
         split; [intros _; lia|];
         intros len Hlen; inversion Hlen; subst len; split; [reflexivity|lia]);
    try (handler_inv H; inversion H; subst; simpl;
         split; [intros _; lia|]; intros len Hlen; discriminate Hlen).
  split; [intros Hne; congruence|].
  intros len Hlen. inversion Hlen; subst len.
  apply bind_Ok in H as (b1 & _ & H). apply bind_Ok in H as (b2 & _ & H).
  apply bind_Ok in H as (meth & _ & H).
  apply bind_Ok in H as ([lq sc1] & _ & H).
  apply bind_Ok in H as ([res w1] & _ & H).
  destruct (has_value res); handler_inv H; inversion H; subst; simpl;
    split; [reflexivity|lia|reflexivity|lia].
Qed.

(** X19: [invokevirtual] is the only handler that writes to standard
    output: it appends the popped top of the stack as one line.  Every other
    handler leaves the output as it was, a call apart, whose output is its
    callee's. *)
Theorem print_is_sole_output (exec : callee) (cls : class_file_t)
    (m : method_t) (f : frame) (w : world) (r : step_result) :
  step exec cls m f w = Ok r ->
  (fetch m f = Ok (Some i_invokevirtual) ->
     exists v,
       rd (operand_stack f) (stack_count f - 1) = Ok v /\
       stdout (world_of r) = stdout w ++ [v]) /\
  (fetch m f <> Ok (Some i_invokevirtual) ->
   fetch m f <> Ok (Some i_invokestatic) ->
     stdout (world_of r) = stdout w).
Proof.
  intros H. destruct f as [p os sc ls]. unfold step, step_with in H. unfold fetch.
  simpl. apply bind_Ok in H as (opc & Hopc & H). rewrite Hopc. simpl.
  destruct (decode opc) as [i|] eqn:Hdec; [|split; [discriminate|]].
  - destruct i;
      try (split; [discriminate|]; intros _ _;
           unfold heap_add in H; handler_inv H; inversion H; subst;
           reflexivity).
    + split; [|intros Hne; exfalso; apply Hne; reflexivity].
      intros _. apply bind_Ok in H as (v & Hv & H). inversion H; subst.
      exists v. auto.
    + split; [discriminate|]. intros _ Hne. exfalso. apply Hne. reflexivity.
  - intros _ _. inversion H; subst. reflexivity.
Qed.

(** X20: the seven opcodes [iconst_m1 .. iconst_5] share one handler, which
    pushes the opcode byte minus 3: for the opcode of [iconst_0] plus [k]
    that is the literal [k], from [-1] to [5]; [pc] advances by 1. *)
Theorem iconst_pushes_literal (exec : callee) (cls : class_file_t)
    (m : method_t) (f : frame) (w : world) (opc : byte) (k : Z) :
  rd (code m) (pc f) = Ok opc ->
  -1 <= k <= 5 ->
  u1 opc = opcode i_iconst_0 + k ->
  0 <= stack_count f < Z.of_nat (length (operand_stack f)) ->
  step exec cls m f w =
    Ok (Continue
          (Frame (pc_plus (pc f) 1)
             (<[Z.to_nat (stack_count f) := k]> (operand_stack f))
             (stack_count f + 1) (locals f)) w).
Proof.
  intros Hopc Hk Hu Hsc. destruct f as [p os sc ls]. simpl in *.
  unfold step, step_with. rewrite Hopc; simpl.
  replace k with (u1 opc - 3) by (simpl in Hu; lia).
  assert (Hcase : k = -1 \/ k = 0 \/ k = 1 \/ k = 2 \/ k = 3 \/ k = 4 \/ k = 5)
    by lia.
  destruct Hcase as [-> | [-> | [-> | [-> | [-> | [-> | ->]]]]]];
    [ rewrite (decode_complete opc i_iconst_m1) by exact Hu
    | rewrite (decode_complete opc i_iconst_0) by exact Hu
    | rewrite (decode_complete opc i_iconst_1) by exact Hu
    | rewrite (decode_complete opc i_iconst_2) by exact Hu
    | rewrite (decode_complete opc i_iconst_3) by exact Hu
    | rewrite (decode_complete opc i_iconst_4) by exact Hu
    | rewrite (decode_complete opc i_iconst_5) by exact Hu ];
    rewrite wr_in_bounds by exact Hsc; reflexivity.
Qed.

End Interpreter.

(** ** Instances *)

(** A resolver whose parameter is a [uint16_t] would see the unsigned
    value again: the index and the unsigned operand agree modulo [2^16]. *)
Lemma invokestatic_index_mod (b1 b2 : byte) :
  invokestatic_index b1 b2 mod 65536 = be16 b1 b2.
Proof.
  pose proof (u1_range b1) as H1. pose proof (u1_range b2) as H2.
  pose proof (be16_value b1 b2) as Hbe.
  unfold invokestatic_index, to_int16, wrap.
  change (2 ^ (16 - 1)) with 32768; change (2 ^ 16) with 65536.
  destruct (decide (be16 b1 b2 < 32768)) as [Hlow|Hhigh].
  - rewrite (Z.mod_small (be16 b1 b2 + 32768)) by lia.
    replace (be16 b1 b2 + 32768 - 32768) with (be16 b1 b2) by lia.
    apply Z.mod_small. lia.
  - replace (be16 b1 b2 + 32768) with (be16 b1 b2 - 32768 + 1 * 65536) by lia.
    rewrite Z_mod_plus_full, (Z.mod_small (be16 b1 b2 - 32768)) by lia.
    replace (be16 b1 b2 - 32768 - 32768) with (be16 b1 b2 + (-1) * 65536)
      by lia.
    rewrite Z_mod_plus_full. apply Z.mod_small. lia.
Qed.

(** C10: the index [invokestatic] hands to [find_method_from_index] is the
    two operand bytes read as a signed 16-bit number: for [b1 >= 0x80] it is
    [((b1 << 8) | b2) - 65536], a negative number; for [b1 < 0x80] it is the
    unsigned big-endian value [(b1 << 8) | b2].  The handler calls the
    resolver with that value: when the resolver has no method there the turn
    follows a NULL pointer, whatever it has under other indices; when it has
    the method [M] there, the turn is the call of [M]; and what the resolver
    answers for any other index changes nothing. *)
Theorem invokestatic_index_signed (b1 b2 : byte) :
  (128 <= u1 b1 ->
     invokestatic_index b1 b2 = Z.lor (Z.shiftl (u1 b1) 8) (u1 b2) - 65536 /\
     invokestatic_index b1 b2 < 0) /\
  (u1 b1 < 128 ->
     invokestatic_index b1 b2 = Z.lor (Z.shiftl (u1 b1) 8) (u1 b2) /\
     0 <= invokestatic_index b1 b2) /\
  (forall (fm : Z -> class_file_t -> option method_t)
          (gp : method_t -> nat) (exec : callee) (cls : class_file_t)
          (m : method_t) (f : frame) (w : world),
     fetch m f = Ok (Some i_invokestatic) ->
     rd (code m) (pc_plus (pc f) 1) = Ok b1 ->
     rd (code m) (pc_plus (pc f) 2) = Ok b2 ->
     (fm (invokestatic_index b1 b2) cls = None ->
        step fm gp exec cls m f w = Err Undefined) /\
     (forall M : method_t,
        fm (invokestatic_index b1 b2) cls = Some M ->
        step fm gp exec cls m f w =
          ('(locals_queue, sc) ←
             pop_arguments (gp M) (calloc (max_locals M)) (operand_stack f)
               (stack_count f);
           '(res, w') ← exec M locals_queue w;
           if has_value res then
             os' ← wr (operand_stack f) sc (value res);
             continue (pc_plus (pc f) 3) os' (sc + 1) (locals f) w'
           else
             continue (pc_plus (pc f) 3) (operand_stack f) sc (locals f) w')) /\
     (forall fm' : Z -> class_file_t -> option method_t,
        fm' (invokestatic_index b1 b2) cls =
          fm (invokestatic_index b1 b2) cls ->
        step fm' gp exec cls m f w = step fm gp exec cls m f w)).
Proof.
  pose proof (u1_range b1) as H1. pose proof (u1_range b2) as H2.
  pose proof (be16_value b1 b2) as Hbe.
  split; [|split];
    [ unfold invokestatic_index, to_int16, wrap;
      change (Z.lor (Z.shiftl (u1 b1) 8) (u1 b2)) with (be16 b1 b2);
      change (2 ^ (16 - 1)) with 32768; change (2 ^ 16) with 65536 .. | ].
  - intros Hhigh.
    replace (be16 b1 b2 + 32768) with (be16 b1 b2 - 32768 + 1 * 65536) by lia.
    rewrite Z_mod_plus_full, Z.mod_small by lia. lia.
  - intros Hlow. rewrite Z.mod_small by lia. lia.
  - intros fm gp exec cls m f w Hf Hb1 Hb2.
    destruct f as [p os sc ls].
    apply fetch_Ok in Hf as (opc & Hopc & Hdec).
    cbn [pc operand_stack stack_count locals] in *.
    assert (Hstep : forall fm0 : Z -> class_file_t -> option method_t,
      step fm0 gp exec cls m (Frame p os sc ls) w =
        (meth ← deref (fm0 (invokestatic_index b1 b2) cls);
         '(locals_queue, sc) ←
           pop_arguments (gp meth) (calloc (max_locals meth)) os sc;
         '(res, w') ← exec meth locals_queue w;
         if has_value res then
           os' ← wr os sc (value res);
           continue (pc_plus p 3) os' (sc + 1) ls w'
         else continue (pc_plus p 3) os sc ls w')).
    { intros fm0. unfold step, step_with.
      rewrite Hopc; simpl. rewrite Hdec, Hb1; simpl. rewrite Hb2; simpl.
      reflexivity. }
    split; [|split].
    + intros Hnone. rewrite Hstep, Hnone. reflexivity.
    + intros M HM. rewrite Hstep, HM. reflexivity.
    + intros fm' Hsame. rewrite !Hstep, Hsame. reflexivity.
Qed.


(** [newarray] on the counts 3 and [-1], from an empty heap. *)
Lemma newarray_spec_witness :
  let f := Frame 0 [3] 1 [] in
  let g := Frame 0 [-1] 1 [] in
  (fetch newarray_method f = Ok (Some i_newarray) /\
   is_int32 3 /\ 0 <= 3 < INT32_MAX /\ is_int32 (-1) /\ -1 < 0) /\
  step no_methods no_parameters void_callee empty_class newarray_method f
    empty_world =
    Ok (Continue (Frame 2 [0] 1 []) (World [[3; 0; 0; 0]] [])) /\
  step no_methods no_parameters void_callee empty_class newarray_method g
    empty_world = Err AssertFail.
Proof.
  intros f g.
  assert (Hf : fetch newarray_method f = Ok (Some i_newarray)) by reflexivity.
  assert (Hg : fetch newarray_method g = Ok (Some i_newarray)) by reflexivity.
  assert (H3 : is_int32 3) by (unfold is_int32, INT32_MIN, INT32_MAX; lia).
  assert (Hr : 0 <= 3 < INT32_MAX) by (unfold INT32_MAX; lia).
  assert (Hm : is_int32 (-1)) by (unfold is_int32, INT32_MIN, INT32_MAX; lia).
  assert (Hn : -1 < 0) by lia.
  split; [auto 10|]. split.
  - exact (proj1 (proj1 (newarray_spec no_methods no_parameters void_callee
             empty_class newarray_method f empty_world 3 Hf eq_refl H3) Hr)).
  - exact (proj2 (newarray_spec no_methods no_parameters void_callee
             empty_class newarray_method g empty_world (-1) Hg eq_refl Hm) Hn).
Defined.

(** C5 as first stated fails at [count = 2^31 - 1]: the count is not
    negative, yet no array is allocated: [count + 1] is not an [int], the
    block cannot be had, and the turn has no result. *)
Lemma newarray_int_max_undefined :
  let f := Frame 0 [2147483647] 1 [] in
  fetch newarray_method f = Ok (Some i_newarray) /\
  0 <= 2147483647 /\
  is_int32 2147483647 /\
  step no_methods no_parameters void_callee empty_class newarray_method f
    empty_world = Err Undefined /\
  (forall f' w',
     step no_methods no_parameters void_callee empty_class newarray_method f
       empty_world <> Ok (Continue f' w')).
Proof.
  intros f. split; [reflexivity|]. split; [lia|].
  split; [unfold is_int32, INT32_MIN, INT32_MAX; lia|].
  split; [reflexivity|]. intros f' w'. discriminate.
Qed.

(** Element 1 of a two-element array, stored and loaded back. *)
Lemma iastore_iaload_roundtrip_witness :
  let w := World [[2; 0; 0]] [] in
  let f := Frame 0 [0; 1; 42] 3 [] in
  (is_array (heap w) 0 2 /\ 0 <= 1 < 2) /\
  exists h',
    step no_methods no_parameters void_callee empty_class iastore_method f w =
      Ok (Continue (Frame 1 [0; 1; 42] 0 []) (World h' [])) /\
    step no_methods no_parameters void_callee empty_class iaload_method
      (Frame 0 [0; 1] 2 []) (World h' []) =
      Ok (Continue (Frame 1 [42; 1] 1 []) (World h' [])).
Proof.
  intros w f.
  assert (Harr : is_array (heap w) 0 2).
  { exists [2; 0; 0]. split; [reflexivity|]. split; [reflexivity|].
    split; [reflexivity|]. unfold is_int32, INT32_MIN, INT32_MAX. lia. }
  assert (Hi : 0 <= 1 < 2) by lia.
  split; [auto|].
  destruct (iastore_iaload_roundtrip no_methods no_parameters void_callee
              empty_class iastore_method f w 0 2 1 42 Harr Hi
              eq_refl eq_refl eq_refl eq_refl)
    as (h' & Hstore & _ & _ & Hload).
  exists h'. split; [exact Hstore|].
  exact (Hload void_callee empty_class iaload_method (Frame 0 [0; 1] 2 []) []
           eq_refl eq_refl eq_refl).
Defined.

(** [newarray] on 3, then [arraylength] on the reference it left. *)
Lemma newarray_arraylength_witness :
  let f := Frame 0 [3] 1 [] in
  (fetch newarray_method f = Ok (Some i_newarray) /\ 0 <= 3 < INT32_MAX) /\
  exists f1 w1 ref,
    step no_methods no_parameters void_callee empty_class newarray_method f
      empty_world = Ok (Continue f1 w1) /\
    step no_methods no_parameters void_callee empty_class arraylength_method
      (Frame 0 [ref] 1 []) w1 =
      Ok (Continue (Frame 1 [3] 1 []) w1).
Proof.
  intros f.
  assert (Hf : fetch newarray_method f = Ok (Some i_newarray)) by reflexivity.
  assert (Hr : 0 <= 3 < INT32_MAX) by (unfold INT32_MAX; lia).
  split; [auto|].
  destruct (newarray_arraylength no_methods no_parameters void_callee
              empty_class newarray_method f empty_world 3 Hf eq_refl Hr)
    as (f1 & w1 & ref & Hstep & _ & _ & Hlen).
  exists f1, w1, ref. split; [exact Hstep|].
  exact (Hlen void_callee empty_class arraylength_method (Frame 0 [ref] 1 [])
           w1 eq_refl eq_refl eq_refl).
Defined.

(** [ifeq] taken and not taken, [if_icmplt] taken, [ifne] taken
    backwards. *)
Lemma conditional_branch_spec_witness :
  (pc_valid ifeq_method (Frame 0 [0] 1 []) /\
   pc_valid if_icmplt_method (Frame 0 [1; 2] 2 []) /\
   pc_valid ifne_back_method (Frame 3 [7] 1 []) /\ 0 <= 3 + -3) /\
  step no_methods no_parameters void_callee empty_class ifeq_method
    (Frame 0 [0] 1 []) empty_world =
    Ok (Continue (Frame 5 [0] 0 []) empty_world) /\
  step no_methods no_parameters void_callee empty_class ifeq_method
    (Frame 0 [9] 1 []) empty_world =
    Ok (Continue (Frame 3 [9] 0 []) empty_world) /\
  step no_methods no_parameters void_callee empty_class if_icmplt_method
    (Frame 0 [1; 2] 2 []) empty_world =
    Ok (Continue (Frame 6 [1; 2] 0 []) empty_world) /\
  step no_methods no_parameters void_callee empty_class ifne_back_method
    (Frame 3 [7] 1 []) empty_world =
    Ok (Continue (Frame 0 [7] 0 []) empty_world) /\
  to_size_t (3 + to_int16 (be16 (byte_of 255) (byte_of 253))) = 3 + -3.
Proof.
  assert (H1 : pc_valid ifeq_method (Frame 0 [0] 1 []))
    by (unfold pc_valid; simpl; lia).
  assert (H1' : pc_valid ifeq_method (Frame 0 [9] 1 []))
    by (unfold pc_valid; simpl; lia).
  assert (H2 : pc_valid if_icmplt_method (Frame 0 [1; 2] 2 []))
    by (unfold pc_valid; simpl; lia).
  assert (H3 : pc_valid ifne_back_method (Frame 3 [7] 1 []))
    by (unfold pc_valid; simpl; lia).
  assert (H4 : 0 <= 3 + -3) by lia.
  split; [auto|]. split; [|split; [|split; [|split]]].
  - exact (proj1 (proj2 (proj2 (conditional_branch_spec no_methods
             no_parameters void_callee empty_class ifeq_method
             (Frame 0 [0] 1 []) empty_world (byte_of 0) (byte_of 5)
             H1 eq_refl eq_refl)))
           i_ifeq _ 0 eq_refl eq_refl eq_refl).
  - exact (proj1 (proj2 (proj2 (conditional_branch_spec no_methods
             no_parameters void_callee empty_class ifeq_method
             (Frame 0 [9] 1 []) empty_world (byte_of 0) (byte_of 5)
             H1' eq_refl eq_refl)))
           i_ifeq _ 9 eq_refl eq_refl eq_refl).
  - exact (proj2 (proj2 (proj2 (conditional_branch_spec no_methods
             no_parameters void_callee empty_class if_icmplt_method
             (Frame 0 [1; 2] 2 []) empty_world (byte_of 0) (byte_of 6)
             H2 eq_refl eq_refl)))
           i_if_icmplt _ 1 2 eq_refl eq_refl eq_refl eq_refl).
  - exact (proj1 (proj2 (proj2 (conditional_branch_spec no_methods
             no_parameters void_callee empty_class ifne_back_method
             (Frame 3 [7] 1 []) empty_world (byte_of 255) (byte_of 253)
             H3 eq_refl eq_refl)))
           i_ifne _ 7 eq_refl eq_refl eq_refl).
  - exact (proj1 (proj2 (conditional_branch_spec no_methods
             no_parameters void_callee empty_class ifne_back_method
             (Frame 3 [7] 1 []) empty_world (byte_of 255) (byte_of 253)
             H3 eq_refl eq_refl)) H4).
Defined.

(** A call of [sub] with 7 pushed before 5: the callee sees [[7; 5]] and
    returns 2. *)
Lemma invokestatic_spec_witness :
  let exec : callee :=
    fun meth l w => execute sub_class_methods two_parameters 10 meth l
                      empty_class w in
  let f := Frame 0 [7; 5] 2 [] in
  (pc_valid sub_caller f /\
   sub_class_methods (invokestatic_index (byte_of 0) (byte_of 2)) empty_class =
     Some sub_method /\
   Z.of_nat (two_parameters sub_method) <= 2 <= 2 /\
   Z.of_nat (two_parameters sub_method) <= max_locals sub_method) /\
  exec sub_method [7; 5] empty_world =
    Ok (OptionalValue true 2, empty_world) /\
  step sub_class_methods two_parameters exec empty_class sub_caller f
    empty_world =
    Ok (Continue (Frame 3 [2; 5] 1 []) empty_world).
Proof.
  intros exec f.
  assert (Hpc : pc_valid sub_caller f) by (unfold pc_valid; simpl; lia).
  assert (HM : sub_class_methods (invokestatic_index (byte_of 0) (byte_of 2))
                 empty_class = Some sub_method) by reflexivity.
  assert (Hsc : Z.of_nat (two_parameters sub_method) <= 2 <= 2)
    by (unfold two_parameters; simpl; lia).
  assert (Hloc : Z.of_nat (two_parameters sub_method) <= max_locals sub_method)
    by (unfold two_parameters; simpl; lia).
  assert (Hroom : 2 - Z.of_nat (two_parameters sub_method) < 2)
    by (unfold two_parameters; simpl; lia).
  split; [auto|]. split; [reflexivity|].
  pose proof (invokestatic_spec sub_class_methods two_parameters exec
                empty_class sub_caller f empty_world (byte_of 0) (byte_of 2)
                sub_method Hpc eq_refl eq_refl eq_refl HM Hsc Hloc)
    as [_ Hcall].
  exact (Hcall Hroom).
Defined.



(** The byte [0xff] at [pc = 0]. *)
Lemma unhandled_opcode_spins_witness :
  let f := Frame 0 [0] 0 [] in
  (fetch unknown_byte_method f = Ok None /\
   pc f < code_length unknown_byte_method) /\
  step no_methods no_parameters void_callee empty_class unknown_byte_method f
    empty_world = Ok (Continue f empty_world) /\
  run no_methods no_parameters 1000 empty_class unknown_byte_method f
    empty_world = Err OutOfFuel.
Proof.
  intros f.
  assert (Hf : fetch unknown_byte_method f = Ok None) by reflexivity.
  assert (Hpc : pc f < code_length unknown_byte_method) by (simpl; lia).
  split; [auto|].
  pose proof (unhandled_opcode_spins no_methods no_parameters void_callee
                empty_class unknown_byte_method f empty_world Hf)
    as [Hstep Hrun].
  split; [exact Hstep | exact (Hrun Hpc 1000%nat)].
Defined.

(** C8 as first stated fails at the byte [0xff], which has no handler: the
    turn that meets it does not stop the interpreter, it hands back the
    frame it was given, and the run goes on until its bound. *)
Lemma unhandled_opcode_not_fatal :
  let f := init_frame unknown_byte_method [] in
  decode (byte_of 0xff) = None /\
  step no_methods no_parameters void_callee empty_class unknown_byte_method f
    empty_world = Ok (Continue f empty_world) /\
  step no_methods no_parameters void_callee empty_class unknown_byte_method f
    empty_world <> Err AssertFail /\
  execute no_methods no_parameters 5000 unknown_byte_method [] empty_class
    empty_world = Err OutOfFuel.
Proof.
  intros f. split; [reflexivity|]. split; [reflexivity|].
  split; [discriminate|]. vm_compute. reflexivity.
Qed.

(** [aload 0] against [iload 0], and [aload_2] against [iload_2]. *)
Lemma aload_same_as_iload_witness :
  let f := Frame 0 [0] 0 [9; 8; 7] in
  (fetch iload_method f = Ok (Some i_iload) /\
   fetch aload_method f = Ok (Some i_aload) /\
   0 <= 2 <= 3 /\
   u1 (byte_of 0x1c) = opcode i_iload_0 + 2 /\
   u1 (byte_of 0x2c) = opcode i_aload_0 + 2) /\
  (step no_methods no_parameters void_callee empty_class aload_method f
     empty_world =
   step no_methods no_parameters void_callee empty_class iload_method f
     empty_world /\
   step no_methods no_parameters void_callee empty_class iload_method f
     empty_world = Ok (Continue (Frame 2 [9] 1 [9; 8; 7]) empty_world)) /\
  (step no_methods no_parameters void_callee empty_class aload_2_method f
     empty_world =
   step no_methods no_parameters void_callee empty_class iload_2_method f
     empty_world /\
   step no_methods no_parameters void_callee empty_class iload_2_method f
     empty_world = Ok (Continue (Frame 1 [7] 1 [9; 8; 7]) empty_world)).
Proof.
  intros f.
  assert (Hk : 0 <= 2 <= 3) by lia.
  split; [repeat (split; [reflexivity || exact Hk|]); reflexivity|].
  pose proof (aload_same_as_iload no_methods no_parameters void_callee
                empty_class iload_method aload_method f empty_world)
    as [Hlong _].
  pose proof (aload_same_as_iload no_methods no_parameters void_callee
                empty_class iload_2_method aload_2_method f empty_world)
    as [_ Hshort].
  split.
  - exact (Hlong eq_refl eq_refl eq_refl).
  - exact (Hshort 2 (byte_of 0x1c) (byte_of 0x2c) Hk eq_refl eq_refl
             eq_refl eq_refl).
Defined.

(** The operand bytes [0x80 0x00] and [0x7f 0xff]. *)
Lemma invokestatic_index_signed_witness :
  let f := Frame 0 [0] 0 [] in
  let index := invokestatic_index (byte_of 0x80) (byte_of 0) in
  (128 <= u1 (byte_of 0x80) /\ u1 (byte_of 0x7f) < 128 /\
   fetch high_index_caller f = Ok (Some i_invokestatic) /\
   unsigned_index_methods index empty_class = None /\
   unsigned_index_methods 32768 empty_class = Some return_method /\
   signed_index_methods index empty_class = Some return_method /\
   every_index_methods index empty_class =
     signed_index_methods index empty_class) /\
  index = 32768 - 65536 /\
  invokestatic_index (byte_of 0x7f) (byte_of 0xff) = 32767 /\
  step unsigned_index_methods no_parameters void_callee empty_class
    high_index_caller f empty_world = Err Undefined /\
  step signed_index_methods no_parameters void_callee empty_class
    high_index_caller f empty_world =
    Ok (Continue (Frame 3 [0] 0 []) empty_world) /\
  step every_index_methods no_parameters void_callee empty_class
    high_index_caller f empty_world =
  step signed_index_methods no_parameters void_callee empty_class
    high_index_caller f empty_world.
Proof.
  intros f index.
  assert (Hhigh : 128 <= u1 (byte_of 0x80)) by (vm_compute; discriminate).
  assert (Hlow : u1 (byte_of 0x7f) < 128) by reflexivity.
  assert (Hf : fetch high_index_caller f = Ok (Some i_invokestatic))
    by reflexivity.
  assert (Hnone : unsigned_index_methods index empty_class = None)
    by reflexivity.
  assert (Hsome : signed_index_methods index empty_class = Some return_method)
    by reflexivity.
  assert (Hsame : every_index_methods index empty_class =
                  signed_index_methods index empty_class) by reflexivity.
  split; [split_and!; auto|]. split; [|split; [|split; [|split]]].
  - exact (proj1 (proj1 (invokestatic_index_signed (byte_of 0x80) (byte_of 0))
                    Hhigh)).
  - exact (proj1 (proj1 (proj2 (invokestatic_index_signed (byte_of 0x7f)
                                  (byte_of 0xff))) Hlow)).
  - exact (proj1 (proj2 (proj2 (invokestatic_index_signed (byte_of 0x80)
                                  (byte_of 0)))
             unsigned_index_methods no_parameters void_callee empty_class
             high_index_caller f empty_world Hf eq_refl eq_refl) Hnone).
  - exact (eq_trans
             (proj1 (proj2 (proj2 (proj2 (invokestatic_index_signed
                                            (byte_of 0x80) (byte_of 0)))
                signed_index_methods no_parameters void_callee empty_class
                high_index_caller f empty_world Hf eq_refl eq_refl))
                return_method Hsome)
             eq_refl).
  - exact (proj2 (proj2 (proj2 (proj2 (invokestatic_index_signed
                                         (byte_of 0x80) (byte_of 0)))
             signed_index_methods no_parameters void_callee empty_class
             high_index_caller f empty_world Hf eq_refl eq_refl))
             every_index_methods Hsame).
Defined.

(** ** Runs *)

(** With operand bytes [0x80 0x00] the method registered under the index
    [-32768] is the one called; one registered under [32768] is not found. *)
Example invokestatic_high_index_run :
  main signed_index_methods no_parameters (main_is high_index_caller)
    class_file_t open_class parse_class close_class 10 command_line =
    Ok (Exit 0 [] []) /\
  main unsigned_index_methods no_parameters (main_is high_index_caller)
    class_file_t open_class parse_class close_class 10 command_line =
    Err Undefined.
Proof. split; reflexivity. Qed.

(** [getstatic; bipush 7; bipush 5; isub; invokevirtual; return]
    prints 2. *)
Example run_isub :
  main no_methods no_parameters
    (main_is (method_of 3 1
             [0xb2; 0; 0; 0x10; 7; 0x10; 5; 0x64; 0xb6; 0; 0; 0xb1]))
    class_file_t open_class parse_class close_class 20 command_line =
    Ok (Exit 0 [2] []).
Proof. reflexivity. Qed.

(** [bipush 3; newarray; dup; iconst_0; bipush 42; iastore; iconst_0;
    iaload; invokevirtual; return] prints 42. *)
Example run_array :
  main no_methods no_parameters
    (main_is (method_of 4 1
             [0x10; 3; 0xbc; 10; 0x59; 0x03; 0x10; 42; 0x4f; 0x03; 0x2e;
              0xb6; 0; 0; 0xb1]))
    class_file_t open_class parse_class close_class 20 command_line =
    Ok (Exit 0 [42] []).
Proof. reflexivity. Qed.

(** [-1 >>> 1] prints 2147483647, [-1 >> 1] prints -1, [1 << 33]
    prints 2. *)
Example run_shifts :
  main no_methods no_parameters
    (main_is (method_of 2 1
             [0x02; 0x10; 1; 0x7c; 0xb6; 0; 0;
              0x02; 0x10; 1; 0x7a; 0xb6; 0; 0;
              0x04; 0x10; 33; 0x78; 0xb6; 0; 0; 0xb1]))
    class_file_t open_class parse_class close_class 30 command_line =
    Ok (Exit 0 [2147483647; -1; 2] []).
Proof. reflexivity. Qed.

(** The sum of 1..10 by a loop with a backward [goto] prints 55. *)
Example run_loop :
  main no_methods no_parameters
    (main_is (method_of 2 2
             [0x03; 0x3b; 0x04; 0x3c; 0x1b; 0x10; 10; 0xa3; 0; 13;
              0x1a; 0x1b; 0x60; 0x3b; 0x84; 1; 1; 0xa7; 0xff; 0xf3;
              0x1a; 0xb6; 0; 0; 0xb1]))
    class_file_t open_class parse_class close_class 200 command_line =
    Ok (Exit 0 [55] []).
Proof. vm_compute. reflexivity. Qed.

(** [sub(7, 5)] through [invokestatic] prints 2: the arguments reach the
    callee in the order they were pushed. *)
Example run_call :
  main sub_class_methods two_parameters
    (main_is (method_of 2 1
             [0x10; 7; 0x10; 5; 0xb8; 0; 2; 0xb6; 0; 0; 0xb1]))
    class_file_t open_class parse_class close_class 20 command_line =
    Ok (Exit 0 [2] []).
Proof. reflexivity. Qed.

(** Without its one argument [main] writes the usage line and leaves with
    status 1; a file that cannot be opened, a file that does not close, a
    class without [main()] and a [main()] that returns a value each fail an
    assertion. *)
Example run_main_exits :
  main no_methods no_parameters (main_is print_method)
    class_file_t open_class parse_class close_class 10 ["jvm"]%string =
    Ok (Exit 1 [] [("USAGE: jvm <class file>" ++ newline)%string]) /\
  main no_methods no_parameters (main_is print_method)
    class_file_t (fun _ => None) parse_class close_class 10 command_line =
    Err AssertFail /\
  main no_methods no_parameters (main_is print_method)
    class_file_t open_class parse_class (fun _ => -1) 10 command_line =
    Err AssertFail /\
  main no_methods no_parameters (fun _ _ _ => None)
    class_file_t open_class parse_class close_class 10 command_line =
    Err AssertFail /\
  main no_methods no_parameters (main_is (method_of 1 1 [0x04; 0xac]))
    class_file_t open_class parse_class close_class 10 command_line =
    Err AssertFail /\
  main no_methods no_parameters (main_is print_method)
    class_file_t open_class parse_class close_class 10 command_line =
    Ok (Exit 0 [5] []).
Proof. repeat split; reflexivity. Qed.

(** ** Further instances *)

(** An allocation on a heap that already holds one array. *)
Lemma execute_heap_extends_witness :
  let w := World [[1; 7]] [] in
  let w' := World [[1; 7]; [3; 0; 0; 0]] [] in
  execute no_methods no_parameters 10 allocate_method [] empty_class w =
    Ok (void_result, w') /\
  heap_extends (heap w) (heap w').
Proof.
  intros w w'.
  assert (H : execute no_methods no_parameters 10 allocate_method []
                empty_class w = Ok (void_result, w')) by reflexivity.
  split; [exact H|].
  exact (execute_heap_extends no_methods no_parameters 10 allocate_method []
           empty_class w void_result w' H).
Defined.

(** A print after one line was already printed. *)
Lemma execute_output_extends_witness :
  let w := World [] [9] in
  let w' := World [] [9; 5] in
  execute no_methods no_parameters 10 print_method [0] empty_class w =
    Ok (void_result, w') /\
  output_extends (stdout w) (stdout w').
Proof.
  intros w w'.
  assert (H : execute no_methods no_parameters 10 print_method [0]
                empty_class w = Ok (void_result, w')) by reflexivity.
  split; [exact H|].
  exact (execute_output_extends no_methods no_parameters 10 print_method [0]
           empty_class w void_result w' H).
Defined.

(** [INT32_MIN - 1], which wraps. *)
Lemma wrapping_arithmetic_witness :
  let f := Frame 0 [-2147483648; 1] 2 [] in
  (exact_result i_isub = Some (fun a b => a - b) /\
   fetch isub_method f = Ok (Some i_isub)) /\
  exists r,
    step no_methods no_parameters void_callee empty_class isub_method f
      empty_world =
      Ok (Continue (Frame 1 (<[0%nat := r]> [-2147483648; 1]) 1 [])
            empty_world) /\
    is_int32 r /\
    r mod 2 ^ 32 = (-2147483648 - 1) mod 2 ^ 32 /\
    (is_int32 (-2147483648 - 1) -> r = -2147483648 - 1).
Proof.
  intros f. split; [split; reflexivity|].
  exact (wrapping_arithmetic no_methods no_parameters void_callee empty_class
           isub_method f empty_world i_isub (fun a b => a - b)
           (-2147483648) 1 eq_refl eq_refl eq_refl eq_refl).
Defined.

(** [-7 / 2] and [-7 % 2]. *)
Lemma idiv_irem_spec_witness :
  let f := Frame 0 [-7; 2] 2 [] in
  (is_int32 (-7) /\ is_int32 2 /\ 2 <> 0 /\
   ~ (-7 = INT32_MIN /\ 2 = -1)) /\
  exists q r,
    -7 = 2 * q + r /\ Z.abs r < Z.abs 2 /\
    (0 <= -7 -> 0 <= r) /\ (-7 <= 0 -> r <= 0) /\
    is_int32 q /\ is_int32 r /\
    step no_methods no_parameters void_callee empty_class idiv_method f
      empty_world =
      Ok (Continue (Frame 1 (<[0%nat := q]> [-7; 2]) 1 []) empty_world) /\
    step no_methods no_parameters void_callee empty_class irem_method f
      empty_world =
      Ok (Continue (Frame 1 (<[0%nat := r]> [-7; 2]) 1 []) empty_world).
Proof.
  intros f.
  assert (Ha : is_int32 (-7)) by (unfold is_int32, INT32_MIN, INT32_MAX; lia).
  assert (Hb : is_int32 2) by (unfold is_int32, INT32_MIN, INT32_MAX; lia).
  assert (Hnz : 2 <> 0) by lia.
  assert (Hnm : ~ (-7 = INT32_MIN /\ 2 = -1)) by lia.
  split; [auto|].
  exact (proj2 (proj2 (idiv_irem_spec no_methods no_parameters void_callee
           empty_class idiv_method irem_method f empty_world (-7) 2
           eq_refl eq_refl eq_refl eq_refl Ha Hb)) Hnz Hnm).
Defined.

(** [ineg] on 5, and again. *)
Lemma ineg_twice_witness :
  let f := Frame 0 [5] 1 [] in
  let f1 := Frame 1 [-5] 1 [] in
  (fetch ineg_method f = Ok (Some i_ineg) /\ is_int32 5) /\
  step no_methods no_parameters void_callee empty_class ineg_method f
    empty_world = Ok (Continue f1 empty_world) /\
  step no_methods no_parameters void_callee empty_class
    (method_of 1 0 [0; 0x74]) f1 empty_world =
    Ok (Continue (Frame 2 [5] 1 []) empty_world).
Proof.
  intros f f1.
  assert (H5 : is_int32 5) by (unfold is_int32, INT32_MIN, INT32_MAX; lia).
  split; [split; [reflexivity|exact H5]|].
  pose proof (ineg_twice no_methods no_parameters void_callee empty_class
                ineg_method f empty_world 5 eq_refl eq_refl H5)
    as (Hstep & _ & Hback).
  split; [exact Hstep|].
  exact (Hback void_callee empty_class (method_of 1 0 [0; 0x74]) eq_refl).
Defined.

(** [bipush 0xff] and [sipush 0xff 0xfe]. *)
Lemma push_sign_extends_witness :
  let f := Frame 0 [0] 0 [] in
  0 <= stack_count f < Z.of_nat (length (operand_stack f)) /\
  step no_methods no_parameters void_callee empty_class bipush_method f
    empty_world = Ok (Continue (Frame 2 [-1] 1 []) empty_world) /\
  step no_methods no_parameters void_callee empty_class sipush_method f
    empty_world = Ok (Continue (Frame 3 [-2] 1 []) empty_world).
Proof.
  intros f.
  assert (Hsc : 0 <= stack_count f < Z.of_nat (length (operand_stack f)))
    by (simpl; lia).
  split; [exact Hsc|]. split.
  - exact (proj2 (proj1 (push_sign_extends no_methods no_parameters
             void_callee empty_class bipush_method f empty_world Hsc)
             (byte_of 0xff) eq_refl eq_refl)).
  - exact (proj2 (proj2 (push_sign_extends no_methods no_parameters
             void_callee empty_class sipush_method f empty_world Hsc)
             (byte_of 0xff) (byte_of 0xfe) eq_refl eq_refl eq_refl)).
Defined.

(** [-1 >> 1], [-1 >>> 1], and a count of [-1]. *)
Lemma ishr_iushr_spec_witness :
  let f := Frame 0 [-1; 1] 2 [] in
  let g := Frame 0 [-1; -1] 2 [] in
  (is_int32 (-1) /\ 0 <= 1 < 32 /\ -1 < 0) /\
  (exists u,
     step no_methods no_parameters void_callee empty_class ishr_method f
       empty_world =
       Ok (Continue (Frame 1 [-1; 1] 1 []) empty_world) /\
     step no_methods no_parameters void_callee empty_class iushr_method f
       empty_world =
       Ok (Continue (Frame 1 (<[0%nat := u]> [-1; 1]) 1 []) empty_world) /\
     u = 2147483647) /\
  step no_methods no_parameters void_callee empty_class ishr_method g
    empty_world = Err AssertFail.
Proof.
  intros f g.
  assert (Ha : is_int32 (-1)) by (unfold is_int32, INT32_MIN, INT32_MAX; lia).
  assert (Hb : 0 <= 1 < 32) by lia.
  assert (Hn : -1 < 0) by lia.
  assert (H1 : 1 <= 1) by lia.
  split; [auto|]. split.
  - destruct (proj2 (proj2 (ishr_iushr_spec no_methods no_parameters
               void_callee empty_class ishr_method iushr_method f empty_world
               (-1) 1 eq_refl eq_refl eq_refl eq_refl Ha)) Hb)
      as (u & Hs & Hu & _ & _ & _ & Hval & _).
    exists u. split; [exact Hs|]. split; [exact Hu|].
    exact (proj1 (Hval H1)).
  - exact (proj1 (proj1 (ishr_iushr_spec no_methods no_parameters
             void_callee empty_class ishr_method iushr_method g empty_world
             (-1) (-1) eq_refl eq_refl eq_refl eq_refl Ha) Hn)).
Defined.

(** [istore 1; iload 1] on a stack holding 42. *)
Lemma istore_iload_roundtrip_witness :
  let f := Frame 0 [42] 1 [0; 0] in
  u1 (byte_of 1) < Z.of_nat (length (locals f)) /\
  exists ls1,
    step no_methods no_parameters void_callee empty_class
      istore_iload_method f empty_world =
      Ok (Continue (Frame 2 [42] 0 ls1) empty_world) /\
    rd ls1 1 = Ok 42 /\
    step no_methods no_parameters void_callee empty_class
      istore_iload_method (Frame 2 [42] 0 ls1) empty_world =
      Ok (Continue (Frame 4 [42] 1 ls1) empty_world).
Proof.
  intros f.
  assert (Hin : u1 (byte_of 1) < Z.of_nat (length (locals f)))
    by (vm_compute; reflexivity).
  split; [exact Hin|].
  destruct (istore_iload_roundtrip no_methods no_parameters void_callee
              empty_class istore_iload_method f empty_world (byte_of 1) 42
              eq_refl eq_refl eq_refl Hin)
    as (ls1 & Hstore & Hrd & _ & _ & Hload).
  exists ls1. split; [exact Hstore|]. split; [exact Hrd|].
  exact (Hload void_callee empty_class istore_iload_method eq_refl eq_refl).
Defined.

(** [iinc 1 5; iinc 1 -5] on a local holding [INT32_MAX]. *)
Lemma iinc_and_back_witness :
  let f := Frame 0 [] 0 [0; 2147483647] in
  let f1 := Frame 3 [] 0 [0; -2147483644] in
  (is_int32 2147483647 /\
   signed8 (u1 (byte_of 0xfb)) = - signed8 (u1 (byte_of 5))) /\
  step no_methods no_parameters void_callee empty_class iinc_method f
    empty_world = Ok (Continue f1 empty_world) /\
  step no_methods no_parameters void_callee empty_class iinc_method f1
    empty_world =
    Ok (Continue (Frame 6 [] 0 [0; 2147483647]) empty_world).
Proof.
  intros f f1.
  assert (Hint : is_int32 2147483647)
    by (unfold is_int32, INT32_MIN, INT32_MAX; lia).
  assert (Hopp : signed8 (u1 (byte_of 0xfb)) = - signed8 (u1 (byte_of 5)))
    by reflexivity.
  split; [auto|].
  pose proof (iinc_and_back no_methods no_parameters void_callee empty_class
                iinc_method f empty_world (byte_of 1) (byte_of 5) 2147483647
                eq_refl eq_refl eq_refl eq_refl Hint)
    as (Hstep & _ & Hback).
  split; [exact Hstep|].
  exact (Hback void_callee empty_class iinc_method (byte_of 0xfb)
           eq_refl eq_refl eq_refl Hopp).
Defined.

(** [goto +4] inside the code, and [goto -1] from address 0. *)
Lemma goto_spec_witness :
  let f := Frame 0 [] 0 [] in
  (pc_valid goto_method f /\ pc_valid goto_back_method f /\
   0 <= 0 + 4 /\ 0 + -1 < 0) /\
  step no_methods no_parameters void_callee empty_class goto_method f
    empty_world = Ok (Continue (Frame 4 [] 0 []) empty_world) /\
  run no_methods no_parameters 2 empty_class goto_back_method f empty_world =
    Ok (void_result, empty_world).
Proof.
  intros f.
  assert (H1 : pc_valid goto_method f) by (unfold pc_valid; simpl; lia).
  assert (H2 : pc_valid goto_back_method f) by (unfold pc_valid; simpl; lia).
  assert (H3 : 0 <= 0 + 4) by lia.
  assert (H4 : 0 + -1 < 0) by lia.
  split; [auto|]. split.
  - exact (proj1 (goto_spec no_methods no_parameters void_callee empty_class
             goto_method f empty_world (byte_of 0) (byte_of 4)
             H1 eq_refl eq_refl eq_refl) H3).
  - exact (proj2 (goto_spec no_methods no_parameters void_callee empty_class
             goto_back_method f empty_world (byte_of 0xff) (byte_of 0xff)
             H2 eq_refl eq_refl eq_refl) (or_introl H4) 0%nat).
Defined.

(** A store at index [-1] of a two-element array, then [arraylength]. *)
Lemma iastore_overwrites_count_witness :
  let w := World [[2; 0; 0]] [] in
  let f := Frame 0 [0; -1; 9] 3 [] in
  is_array (heap w) 0 2 /\
  exists h',
    step no_methods no_parameters void_callee empty_class iastore_method f w =
      Ok (Continue (Frame 1 [0; -1; 9] 0 []) (World h' [])) /\
    slot0 h' 0 = Ok 9 /\
    step no_methods no_parameters void_callee empty_class arraylength_method
      (Frame 0 [0] 1 []) (World h' []) =
      Ok (Continue (Frame 1 [9] 1 []) (World h' [])).
Proof.
  intros w f.
  assert (Harr : is_array (heap w) 0 2).
  { exists [2; 0; 0]. split; [reflexivity|]. split; [reflexivity|].
    split; [reflexivity|]. unfold is_int32, INT32_MIN, INT32_MAX. lia. }
  split; [exact Harr|].
  destruct (iastore_overwrites_count no_methods no_parameters void_callee
              empty_class iastore_method f w 0 2 9 Harr
              eq_refl eq_refl eq_refl eq_refl)
    as (h' & Hstore & Hslot & Hlen).
  exists h'. split; [exact Hstore|]. split; [exact Hslot|].
  exact (Hlen void_callee empty_class arraylength_method (Frame 0 [0] 1 [])
           [] eq_refl eq_refl).
Defined.

(** Indices 2 and [-1] of a two-element array. *)
Lemma iaload_bounds_witness :
  let w := World [[2; 5; 6]] [] in
  (is_array (heap w) 0 2 /\ is_int32 2 /\ is_int32 (-1) /\
   (2 < -1 \/ 2 <= 2) /\ -1 <= -1 < 2) /\
  step no_methods no_parameters void_callee empty_class iaload_method
    (Frame 0 [0; 2] 2 []) w = Err Undefined /\
  exists v,
    step no_methods no_parameters void_callee empty_class iaload_method
      (Frame 0 [0; -1] 2 []) w =
      Ok (Continue (Frame 1 (<[0%nat := v]> [0; -1]) 1 []) w) /\
    (-1 = -1 -> v = 2).
Proof.
  intros w.
  assert (Harr : is_array (heap w) 0 2).
  { exists [2; 5; 6]. split; [reflexivity|]. split; [reflexivity|].
    split; [reflexivity|]. unfold is_int32, INT32_MIN, INT32_MAX. lia. }
  assert (H2 : is_int32 2) by (unfold is_int32, INT32_MIN, INT32_MAX; lia).
  assert (Hm : is_int32 (-1)) by (unfold is_int32, INT32_MIN, INT32_MAX; lia).
  assert (Hout : 2 < -1 \/ 2 <= 2) by lia.
  assert (Hin : -1 <= -1 < 2) by lia.
  split; [auto 10|]. split.
  - exact (proj1 (iaload_bounds no_methods no_parameters void_callee
             empty_class iaload_method (Frame 0 [0; 2] 2 []) w 0 2 2 Harr
             eq_refl eq_refl eq_refl H2) Hout).
  - exact (proj2 (iaload_bounds no_methods no_parameters void_callee
             empty_class iaload_method (Frame 0 [0; -1] 2 []) w 0 2 (-1) Harr
             eq_refl eq_refl eq_refl Hm) Hin).
Defined.

(** [astore 1] against [istore 1], [astore_1] against [istore_1], [areturn]
    against [ireturn]. *)
Lemma reference_forms_same_witness :
  let f := Frame 0 [7] 1 [0; 0] in
  (0 <= 1 <= 3 /\
   u1 (byte_of 0x3c) = opcode i_istore_0 + 1 /\
   u1 (byte_of 0x4c) = opcode i_astore_0 + 1) /\
  (step no_methods no_parameters void_callee empty_class astore_method f
     empty_world =
   step no_methods no_parameters void_callee empty_class istore_method f
     empty_world /\
   step no_methods no_parameters void_callee empty_class istore_method f
     empty_world = Ok (Continue (Frame 2 [7] 0 [0; 7]) empty_world)) /\
  (step no_methods no_parameters void_callee empty_class astore_1_method f
     empty_world =
   step no_methods no_parameters void_callee empty_class istore_1_method f
     empty_world /\
   step no_methods no_parameters void_callee empty_class istore_1_method f
     empty_world = Ok (Continue (Frame 1 [7] 0 [0; 7]) empty_world)) /\
  (step no_methods no_parameters void_callee empty_class areturn_method f
     empty_world =
   step no_methods no_parameters void_callee empty_class ireturn_method f
     empty_world /\
   step no_methods no_parameters void_callee empty_class ireturn_method f
     empty_world = Ok (Returned (OptionalValue true 7) empty_world)).
Proof.
  intros f.
  assert (Hk : 0 <= 1 <= 3) by lia.
  split; [split; [exact Hk|split; reflexivity]|].
  split; [|split].
  - exact (proj1 (reference_forms_same no_methods no_parameters void_callee
             empty_class istore_method astore_method f empty_world)
             eq_refl eq_refl eq_refl).
  - exact (proj1 (proj2 (reference_forms_same no_methods no_parameters
             void_callee empty_class istore_1_method astore_1_method f
             empty_world))
             1 (byte_of 0x3c) (byte_of 0x4c) Hk eq_refl eq_refl
             eq_refl eq_refl).
  - exact (proj2 (proj2 (reference_forms_same no_methods no_parameters
             void_callee empty_class ireturn_method areturn_method f
             empty_world)) eq_refl eq_refl).
Defined.

(** The boundary after [bipush 7; istore 1]. *)
Lemma locals_block_fixed_witness :
  boundary no_methods no_parameters void_callee empty_class
    bipush_istore_method [0; 0] empty_world (Frame 4 [7] 0 [0; 7])
    empty_world /\
  length (locals (Frame 4 [7] 0 [0; 7])) = length [0; 0].
Proof.
  assert (Hb : boundary no_methods no_parameters void_callee empty_class
                 bipush_istore_method [0; 0] empty_world
                 (Frame 4 [7] 0 [0; 7]) empty_world).
  { eapply boundary_next;
      [eapply boundary_next; [apply boundary_entry | reflexivity | reflexivity]
      | reflexivity | reflexivity]. }
  split; [exact Hb|].
  exact (locals_block_fixed no_methods no_parameters void_callee empty_class
           bipush_istore_method [0; 0] empty_world _ _ Hb).
Defined.

(** [ldc 1] on a pool whose first entry is the integer 100000, [ldc 2] on
    its second entry, which is no integer, and [ldc 0]. *)
Lemma ldc_spec_witness :
  let f := Frame 0 [0] 0 [] in
  ((0 <= stack_count f < Z.of_nat (length (operand_stack f))) /\
   (1 <= u1 (byte_of 1)) /\ (u1 (byte_of 0) = 0)) /\
  step no_methods no_parameters void_callee ldc_class ldc_method f
    empty_world = Ok (Continue (Frame 2 [100000] 1 []) empty_world) /\
  step no_methods no_parameters void_callee ldc_class
    (method_of 1 0 [0x12; 2]) f empty_world = Err Undefined /\
  step no_methods no_parameters void_callee ldc_class
    (method_of 1 0 [0x12; 0]) f empty_world = Err Undefined.
Proof.
  intros f.
  assert (Hsc : 0 <= stack_count f < Z.of_nat (length (operand_stack f)))
    by (simpl; lia).
  assert (H1 : 1 <= u1 (byte_of 1)) by (vm_compute; discriminate).
  assert (H2 : 1 <= u1 (byte_of 2)) by (vm_compute; discriminate).
  assert (H0 : u1 (byte_of 0) = 0) by reflexivity.
  split; [auto|]. split; [|split].
  - exact (proj2 (ldc_spec no_methods no_parameters void_callee ldc_class
             ldc_method f empty_world (byte_of 1) eq_refl eq_refl Hsc)
             (CONSTANT_Integer_info 100000) H1 eq_refl).
  - exact (proj2 (ldc_spec no_methods no_parameters void_callee ldc_class
             (method_of 1 0 [0x12; 2]) f empty_world (byte_of 2)
             eq_refl eq_refl Hsc)
             CONSTANT_other H2 eq_refl).
  - exact (proj1 (ldc_spec no_methods no_parameters void_callee ldc_class
             (method_of 1 0 [0x12; 0]) f empty_world (byte_of 0)
             eq_refl eq_refl Hsc) (or_introl H0)).
Defined.

(** [32767 * 32767], squared again: the product overflows and is reduced. *)
Lemma execute_int32_witness :
  (pool_int32 empty_class /\ Forall is_int32 [] /\
   heap_int32 (heap empty_world)) /\
  execute no_methods no_parameters 10 overflow_method [] empty_class
    empty_world = Ok (OptionalValue true 2147352577, empty_world) /\
  is_int32 2147352577 /\ heap_int32 (heap empty_world).
Proof.
  assert (Hpool : pool_int32 empty_class).
  { intros v Hv. simpl in Hv. apply elem_of_nil in Hv. destruct Hv. }
  assert (Hl : Forall is_int32 []) by constructor.
  assert (Hh : heap_int32 (heap empty_world)) by constructor.
  assert (Hrun : execute no_methods no_parameters 10 overflow_method []
                   empty_class empty_world =
                 Ok (OptionalValue true 2147352577, empty_world))
    by reflexivity.
  assert (Hsize : Z.of_nat (length (heap empty_world)) <= 2 ^ 31)
    by (simpl; lia).
  split; [auto|]. split; [exact Hrun|].
  exact (execute_int32 no_methods no_parameters 10 overflow_method []
           empty_class empty_world _ _ Hpool Hl Hh Hrun Hsize).
Defined.

(** [bipush]: one word more, two bytes further. *)
Lemma stack_effect_and_length_witness :
  let f := Frame 0 [0] 0 [] in
  let f' := Frame 2 [-1] 1 [] in
  (fetch bipush_method f = Ok (Some i_bipush) /\
   step no_methods no_parameters void_callee empty_class bipush_method f
     empty_world = Ok (Continue f' empty_world) /\
   i_bipush <> i_invokestatic /\
   instruction_length i_bipush = Some 2) /\
  stack_count f' = stack_count f + stack_effect i_bipush /\
  pc f' = pc_plus (pc f) 2 /\ 1 <= 2 <= 3.
Proof.
  intros f f'.
  assert (Hne : i_bipush <> i_invokestatic) by discriminate.
  split; [split; [reflexivity|split; [reflexivity|split;
            [exact Hne|reflexivity]]]|].
  pose proof (stack_effect_and_length no_methods no_parameters void_callee
                empty_class bipush_method f f' empty_world empty_world
                i_bipush eq_refl eq_refl) as [Heff Hlen].
  split; [exact (Heff Hne)|exact (Hlen 2 eq_refl)].
Defined.

(** [invokevirtual] on 5 prints 5; [bipush] prints nothing. *)
Lemma print_is_sole_output_witness :
  (step no_methods no_parameters void_callee empty_class
     invokevirtual_method (Frame 0 [5] 1 []) (World [] [1]) =
     Ok (Continue (Frame 3 [5] 0 []) (World [] [1; 5])) /\
   step no_methods no_parameters void_callee empty_class bipush_method
     (Frame 0 [0] 0 []) (World [] [1]) =
     Ok (Continue (Frame 2 [-1] 1 []) (World [] [1]))) /\
  (exists v,
     rd [5] (1 - 1) = Ok v /\
     stdout (World [] [1; 5]) = stdout (World [] [1]) ++ [v]) /\
  stdout (world_of (Continue (Frame 2 [-1] 1 []) (World [] [1]))) = [1].
Proof.
  assert (Hp : step no_methods no_parameters void_callee empty_class
                 invokevirtual_method (Frame 0 [5] 1 []) (World [] [1]) =
               Ok (Continue (Frame 3 [5] 0 []) (World [] [1; 5])))
    by reflexivity.
  assert (Hq : step no_methods no_parameters void_callee empty_class
                 bipush_method (Frame 0 [0] 0 []) (World [] [1]) =
               Ok (Continue (Frame 2 [-1] 1 []) (World [] [1])))
    by reflexivity.
  assert (H1 : fetch bipush_method (Frame 0 [0] 0 []) <>
               Ok (Some i_invokevirtual)) by discriminate.
  assert (H2 : fetch bipush_method (Frame 0 [0] 0 []) <>
               Ok (Some i_invokestatic)) by discriminate.
  split; [auto|]. split.
  - exact (proj1 (print_is_sole_output no_methods no_parameters void_callee
             empty_class invokevirtual_method (Frame 0 [5] 1 [])
             (World [] [1]) _ Hp) eq_refl).
  - exact (proj2 (print_is_sole_output no_methods no_parameters void_callee
             empty_class bipush_method (Frame 0 [0] 0 []) (World [] [1]) _ Hq)
             H1 H2).
Defined.

(** [iconst_m1]. *)
Lemma iconst_pushes_literal_witness :
  let f := Frame 0 [0] 0 [] in
  ((-1 <= -1 <= 5) /\ (u1 (byte_of 0x02) = opcode i_iconst_0 + -1) /\
   (0 <= stack_count f < Z.of_nat (length (operand_stack f)))) /\
  step no_methods no_parameters void_callee empty_class iconst_m1_method f
    empty_world = Ok (Continue (Frame 1 [-1] 1 []) empty_world).
Proof.
  intros f.
  assert (Hk : -1 <= -1 <= 5) by lia.
  assert (Hsc : 0 <= stack_count f < Z.of_nat (length (operand_stack f)))
    by (simpl; lia).
  split; [split; [exact Hk|split; [reflexivity|exact Hsc]]|].
  exact (iconst_pushes_literal no_methods no_parameters void_callee
           empty_class iconst_m1_method f empty_world (byte_of 0x02) (-1)
           eq_refl Hk eq_refl Hsc).
Defined.
